(** * triSYCL: coordinates, ND-ranges, buffers and the sequential iterator

    A shallow embedding of the implementation header of triSYCL
    (the file holding [RangeImpl], [IdImpl], [NDRangeImpl], [AccessorImpl],
    [BufferImpl] and [ParallelForIterate]) and of the parts of
    [include/CL/sycl.hpp] that sit on top of it ([nd_range], [item],
    [nd_item], [buffer]).

    Conventions.
    - [std::intptr_t], [std::ptrdiff_t] and [std::size_t] are 64-bit words,
      held in [Z].  Signed arithmetic wraps around in two's complement
      ([wrap_intptr]); signed overflow is undefined behaviour in C++, the
      wrap is what the compiled code does.  A division whose divisor is 0,
      or [INTPTR_MIN / -1], traps: it is [None].
    - A [std::vector<std::intptr_t>] is a [list Z].  [operator[]] on a vector
      is unchecked in C++; reading or writing outside the vector is [None]
      here.
    - Memory is a list of blocks; a pointer is a block number and an offset.
      [boost::multi_array_ref] is a pointer with extents, [boost::multi_array]
      is the same with a block of its own. *)

From stdpp Require Import base numbers option list sorting.

Local Open Scope Z_scope.

(** ** Machine integers *)

Definition word_width : Z := 64.

Definition INTPTR_MIN : Z := - 2 ^ (word_width - 1).
Definition INTPTR_MAX : Z := 2 ^ (word_width - 1) - 1.

(** Reduction of a mathematical integer to the signed word it is stored as. *)
Definition wrap_intptr (z : Z) : Z :=
  (z + 2 ^ (word_width - 1)) `mod` 2 ^ word_width - 2 ^ (word_width - 1).

(** Conversion to [std::size_t]: reduction modulo [2 ^ word_width]. *)
Definition to_size_t (z : Z) : Z := z `mod` 2 ^ word_width.

Definition intptr_add (a b : Z) : option Z := Some (wrap_intptr (a + b)).
Definition intptr_mul (a b : Z) : option Z := Some (wrap_intptr (a * b)).

(** [/] on [std::intptr_t]: truncation towards zero. *)
Definition intptr_div (a b : Z) : option Z :=
  if decide (b = 0) then None
  else if decide (a = INTPTR_MIN ∧ b = -1) then None
  else Some (a `quot` b).

(** [(dividend + divisor - 1) / divisor], evaluated left to right on
    [std::intptr_t]. *)
Definition intptr_div_up (dividend divisor : Z) : option Z :=
  intptr_div (wrap_intptr (wrap_intptr (dividend + divisor) - 1)) divisor.

(** ** RangeImpl<Dimensions> and IdImpl<N>

    [struct RangeImpl : std::vector<std::intptr_t>]; the template argument
    [Dimensions] is the explicit argument [D] of the functions below. *)

Abbreviation RangeImpl := (list Z) (only parsing).
Abbreviation IdImpl := (list Z) (only parsing).

(** The ways to build a [RangeImpl<D>]. *)
Inductive RangeImpl_ctor :=
  | ctor_default                          (* RangeImpl() *)
  | ctor_copy (init : RangeImpl)          (* RangeImpl(const RangeImpl &) *)
  | ctor_initializer_list (l : list Z)    (* RangeImpl(std::initializer_list) *)
  | ctor_vector_count (n : nat)           (* inherited: vector(size_type) *)
  | ctor_vector_fill (n : nat) (v : Z)    (* inherited: vector(size_type, const T &) *)
  | ctor_vector_iterators (l : list Z).   (* inherited: vector(first, last) *)

(** [RangeImpl() : vector(Dimensions) {}]: [Dimensions] value-initialised
    elements. *)
Definition RangeImpl_default (D : nat) : RangeImpl := replicate D 0.

(** The result of a constructor call; [None] is the failed
    [assert(Dimensions == l.size())]. *)
Definition RangeImpl_construct (D : nat) (c : RangeImpl_ctor) : option RangeImpl :=
  match c with
  | ctor_default => Some (RangeImpl_default D)
  | ctor_copy init => Some init
  | ctor_initializer_list l =>
      if decide (D = length l) then Some l else None
  | ctor_vector_count n => Some (replicate n 0)
  | ctor_vector_fill n v => Some (replicate n v)
  | ctor_vector_iterators l => Some l
  end.

(** The values of type [RangeImpl<D>] a program can build: a copy is taken
    from a value that was itself built. *)
Inductive RangeImpl_built (D : nat) : RangeImpl → Prop :=
  | built_direct c r :
      (∀ init, c ≠ ctor_copy init) →
      RangeImpl_construct D c = Some r →
      RangeImpl_built D r
  | built_copy init r :
      RangeImpl_built D init →
      RangeImpl_construct D (ctor_copy init) = Some r →
      RangeImpl_built D r.

(** [auto get(int index) { return ( *this)[index]; }] *)
Definition RangeImpl_get (r : RangeImpl) (index : nat) : option Z := r !! index.

(** [struct IdImpl : RangeImpl<N>] with [using RangeImpl<N>::RangeImpl],
    [IdImpl(const RangeImpl<N> &)] and [IdImpl() = default]: the same ways
    to build a value. *)
Definition IdImpl_construct (N : nat) (c : RangeImpl_ctor) : option IdImpl :=
  RangeImpl_construct N c.

(** The three operators share one loop,
    [for (int i = 0; i < Dimensions; i++) result[i] = a[i] op b[i];]
    over a default-constructed [result]. *)
Definition elementwise_step (op : Z → Z → option Z) (a b : RangeImpl)
    (acc : option RangeImpl) (i : nat) : option RangeImpl :=
  result ← acc;
  x ← a !! i;
  y ← b !! i;
  v ← op x y;
  if decide (i < length result)%nat then Some (<[i:=v]> result) else None.

Definition elementwise (op : Z → Z → option Z) (D : nat) (a b : RangeImpl)
    : option RangeImpl :=
  foldl (elementwise_step op a b) (Some (RangeImpl_default D)) (seq 0 D).

(** [operator /]: "An element-wise division of ranges, with upper rounding". *)
Definition operator_div (D : nat) (dividend divisor : RangeImpl) : option RangeImpl :=
  elementwise intptr_div_up D dividend divisor.

(** [operator *] *)
Definition operator_mul (D : nat) (a b : RangeImpl) : option RangeImpl :=
  elementwise intptr_mul D a b.

(** [operator +] *)
Definition operator_add (D : nat) (a b : RangeImpl) : option RangeImpl :=
  elementwise intptr_add D a b.

(** The values built with the constructors [RangeImpl] declares itself
    (default, copy, initializer list) and with the three operators. *)
Inductive RangeImpl_declared (D : nat) : RangeImpl → Prop :=
  | declared_default r :
      RangeImpl_construct D ctor_default = Some r →
      RangeImpl_declared D r
  | declared_initializer_list l r :
      RangeImpl_construct D (ctor_initializer_list l) = Some r →
      RangeImpl_declared D r
  | declared_copy init r :
      RangeImpl_declared D init →
      RangeImpl_construct D (ctor_copy init) = Some r →
      RangeImpl_declared D r
  | declared_operator a b r :
      operator_div D a b = Some r ∨ operator_mul D a b = Some r
      ∨ operator_add D a b = Some r →
      RangeImpl_declared D r.

(** [ceiling_divide] as the specification words it, on the signed integers
    of the specification (no word size): both operands of the same rank,
    else a contract violation; component [i] of the result is
    [(a[i] + b[i] - 1) / b[i]] under integer division. *)
Definition ceiling_divide (a b : list Z) : option (list Z) :=
  if decide (length a = length b)
  then Some (zip_with (λ x y, (x + y - 1) `quot` y) a b)
  else None.

(** [q] is the ceiling of the rational [x / y], for a positive [y]. *)
Definition is_ceiling (x y q : Z) : Prop := y * (q - 1) < x ≤ y * q.

(** ** NDRangeImpl<dims> *)

Module NDRangeImpl.
Record t := mk {
  GlobalRange : RangeImpl;
  LocalRange : RangeImpl;
  Offset : IdImpl
}.

Definition get_global_range (ndr : t) : RangeImpl := GlobalRange ndr.
Definition get_local_range (ndr : t) : RangeImpl := LocalRange ndr.

(** [get_group_range() { return GlobalRange/LocalRange; }] *)
Definition get_group_range (D : nat) (ndr : t) : option RangeImpl :=
  operator_div D (GlobalRange ndr) (LocalRange ndr).

Definition get_offset (ndr : t) : IdImpl := Offset ndr.
End NDRangeImpl.

(** ** ItemImpl<dims> *)

Module ItemImpl.
Record t := mk {
  GlobalIndex : IdImpl;
  LocalIndex : IdImpl;
  NDRange : NDRangeImpl.t
}.

Definition get_global (it : t) : IdImpl := GlobalIndex it.
Definition get_local (it : t) : IdImpl := LocalIndex it.
Definition set_local (Index : IdImpl) (it : t) : t :=
  mk (GlobalIndex it) Index (NDRange it).
Definition set_global (Index : IdImpl) (it : t) : t :=
  mk Index (LocalIndex it) (NDRange it).
Definition get_local_range (it : t) : RangeImpl :=
  NDRangeImpl.get_local_range (NDRange it).
Definition get_global_range (it : t) : RangeImpl :=
  NDRangeImpl.get_global_range (NDRange it).
End ItemImpl.

(** ** ParallelForIterate<level, Range, ParallelForFunctor, Id>

    The kernel functor acts on a state [St] (what it captured) and may fail;
    a failure propagates out of the iteration. *)

Section ParallelFor.
Context {St : Type}.

(** [for (index = i; index < i + n; index++) body], the state threaded
    through the iterations. *)
Fixpoint for_loop (n : nat) (i : Z)
    (body : Z → IdImpl * St → option (IdImpl * St))
    (st : IdImpl * St) : option (IdImpl * St) :=
  match n with
  | O => Some st
  | S n' => st' ← body i st; for_loop n' (i + 1) body st'
  end.

(** The constructor of [ParallelForIterate<level, ...>]; [index] is the
    [Id &] all levels write into.  The loop runs from 0 while
    [_sycl_index < _sycl_end], that is [Z.to_nat _sycl_end] times.  The
    specialisation for level 0 calls the functor. *)
Fixpoint ParallelForIterate (dimensionality level : nat) (r : RangeImpl)
    (f : IdImpl → St → option St) (index : IdImpl) (s : St)
    : option (IdImpl * St) :=
  match level with
  | O => s' ← f index s; Some (index, s')
  | S level' =>
      if decide (S level' ≤ dimensionality)%nat then
        let d := (dimensionality - S level')%nat in
        _sycl_end ← r !! d;
        for_loop (Z.to_nat _sycl_end) 0
          (λ _sycl_index st,
             if decide (d < length st.1)%nat
             then ParallelForIterate dimensionality level' r f
                    (<[d:=_sycl_index]> st.1) st.2
             else None)
          (index, s)
      else None
  end.
End ParallelFor.

(** A functor that only records the indices it is called with, in order:
    the value the shared index has at the time of each call. *)
Definition record_call {A : Type} (i : A) (calls : list A) : option (list A) :=
  Some (calls ++ [i]).

(** The indices the iteration over [r] hands to the functor, in call order. *)
Definition calls_of (D : nat) (r : RangeImpl) (index : IdImpl)
    : option (list IdImpl) :=
  snd <$> ParallelForIterate D D r record_call index [].

(** The functor applied to the indices of a list, one call after the other;
    the first failure ends the run. *)
Fixpoint run_calls {St : Type} (f : IdImpl → St → option St)
    (indices : list IdImpl) (s : St) : option St :=
  match indices with
  | [] => Some s
  | i :: indices' => s' ← f i s; run_calls f indices' s'
  end.

(** The box [0 ≤ i_0 < e_0, ..., 0 ≤ i_(n-1) < e_(n-1)] listed with the
    first dimension outermost and each dimension ascending. *)
Fixpoint box (extent : list Z) : list (list Z) :=
  match extent with
  | [] => [[]]
  | e :: extent' => i ← seqZ 0 e; (i ::.) <$> box extent'
  end.

Definition product (l : list Z) : Z := foldr Z.mul 1 l.

(** Lexicographic order on indices of the same length. *)
Fixpoint lex_lt (a b : list Z) : Prop :=
  match a, b with
  | x :: a', y :: b' => x < y ∨ (x = y ∧ lex_lt a' b')
  | _, _ => False
  end.

(** The calls made in the dimensions [d] and up of the extent [r] once the
    dimensions before [d] are fixed to the components of [index]. *)
Definition calls_from (r : RangeImpl) (d : nat) (index : IdImpl) : list IdImpl :=
  (take d index ++.) <$> box (drop d r).

(** What an iteration started on [index] and [s] is to have done when it
    stands for [calls]: it fails where the run of the functor over [calls]
    fails; otherwise it leaves the state of that run, and an index of rank
    [D] whose first [d] components are unchanged. *)
Definition iterated {St : Type} (D : nat) (f : IdImpl → St → option St)
    (d : nat) (index : IdImpl) (s : St)
    (calls : list IdImpl) (result : option (IdImpl * St)) : Prop :=
  match result with
  | Some (index', s') =>
      length index' = D ∧ take d index' = take d index
      ∧ run_calls f calls s = Some s'
  | None => run_calls f calls s = None
  end.

(** ** Memory, boost::multi_array_ref and boost::multi_array *)

Record pointer := mkpointer { block : nat; offset : Z }.

(** The memory: the blocks allocated so far, each a run of elements. *)
Abbreviation heap T := (list (list T)) (only parsing).

Section Memory.
Context {T : Type}.
(** The value-initialised element, [T()]. *)
Context (T_default : T).

Definition load (h : heap T) (p : pointer) : option T :=
  if decide (0 ≤ offset p) then
    b ← h !! block p; b !! Z.to_nat (offset p)
  else None.

Definition store (h : heap T) (p : pointer) (v : T) : option (heap T) :=
  if decide (0 ≤ offset p) then
    b ← h !! block p;
    if decide (Z.to_nat (offset p) < length b)%nat
    then Some (<[block p := <[Z.to_nat (offset p) := v]> b]> h)
    else None
  else None.

(** The [n] elements from [p] on. *)
Definition load_range (h : heap T) (p : pointer) (n : nat) : option (list T) :=
  if decide (0 ≤ offset p) then
    b ← h !! block p;
    if decide (Z.to_nat (offset p) + n ≤ length b)%nat
    then Some (take n (drop (Z.to_nat (offset p)) b))
    else None
  else None.

(** A new block; its number is the pointer the allocator returns. *)
Definition allocate (h : heap T) (contents : list T) : nat * heap T :=
  (length h, h ++ [contents]).

(** A view: the base pointer and the extents, in C storage order with
    index base 0, as SYCL buffers use it. *)
Record multi_array_ref := mk_multi_array_ref {
  base : pointer;
  extent_list : list Z
}.

Definition num_elements (a : multi_array_ref) : Z := product (extent_list a).

(** The offset of the element at [indices], as [operator()(IndexList)] of
    the array computes it: it looks at one entry of [indices] per dimension,
    the first ones, and at no later entry; each entry it looks at is range
    checked (BOOST_ASSERT), [None] is the failed check, or a list with
    fewer entries than the array has dimensions (a read past its end). *)
Fixpoint element_offset (extents indices : list Z) : option Z :=
  match extents with
  | [] => Some 0
  | e :: extents' =>
      match indices with
      | [] => None
      | i :: indices' =>
          if decide (0 ≤ i < e) then
            o ← element_offset extents' indices';
            Some (i * product extents' + o)
          else None
      end
  end.

(** [a(indices)]: a reference to the element. *)
Definition access_element (a : multi_array_ref) (indices : list Z)
    : option pointer :=
  o ← element_offset (extent_list a) indices;
  Some (mkpointer (block (base a)) (offset (base a) + o)).

(** [boost::multi_array<T, dims>(extents)]: a block of its own with
    value-initialised elements. *)
Definition multi_array_new (h : heap T) (extents : list Z)
    : multi_array_ref * heap T :=
  let (p, h') := allocate h (replicate (Z.to_nat (product extents)) T_default) in
  (mk_multi_array_ref (mkpointer p 0) extents, h').

(** [boost::multi_array<T, dims>(const multi_array_ref &)]: a block of its
    own holding a copy of the elements seen through the view. *)
Definition multi_array_copy (h : heap T) (a : multi_array_ref)
    : option (multi_array_ref * heap T) :=
  elements ← load_range h (base a) (Z.to_nat (num_elements a));
  let (p, h') := allocate h elements in
  Some (mk_multi_array_ref (mkpointer p 0) (extent_list a), h').

(** [assign(begin, end)]: copies at most [num_elements] elements to the
    front of the storage. *)
Definition multi_array_assign (h : heap T) (a : multi_array_ref) (src : list T)
    : option (heap T) :=
  if decide (0 ≤ offset (base a)) then
    b ← h !! block (base a);
    let o := Z.to_nat (offset (base a)) in
    let n := Z.to_nat (num_elements a) in
    if decide (o + n ≤ length b)%nat then
      let src' := take n src in
      Some (<[block (base a) :=
               take o b ++ src' ++ drop (o + length src') b]> h)
    else None
  else None.
End Memory.

(** ** access::mode and access::target *)

Module access.
Inductive mode := read | write | atomic | read_write | discard_read_write.

Inductive target :=
  | global_buffer | constant_buffer | local | image | host_buffer
  | host_image | image_array | cl_buffer | cl_image.

(** The enumerators' values: [read = 42], then counting up. *)
Definition mode_value (m : mode) : Z :=
  match m with
  | read => 42 | write => 43 | atomic => 44
  | read_write => 45 | discard_read_write => 46
  end.

(** The modes through which an element may be written. *)
Definition writes (m : mode) : bool :=
  match m with read => false | _ => true end.
End access.

(** ** BufferImpl<T, dimensions> and AccessorImpl<T, dimensions, mode, target> *)

Section Buffer.
Context {T : Type}.
Context (T_default : T).

(** [ReadOnly] is a [bool] without an initialiser: [None] is the
    indeterminate value of a member no constructor wrote. *)
Record BufferImpl := mkBufferImpl {
  Allocation : multi_array_ref;
  Access : multi_array_ref;
  ReadOnly : option bool
}.

(** A member [Allocation] left out of the initialiser list is default
    constructed: no extent, no element. *)
Definition multi_array_default (dimensions : nat) (h : heap T)
    : multi_array_ref * heap T :=
  multi_array_new T_default h (replicate dimensions 0).

(** [BufferImpl(RangeImpl<dimensions> const &r)] *)
Definition BufferImpl_new (r : RangeImpl) (h : heap T) : BufferImpl * heap T :=
  let (allocation, h') := multi_array_new T_default h (to_size_t <$> r) in
  (mkBufferImpl allocation allocation (Some false), h').

(** [BufferImpl(T * host_data, RangeImpl<dimensions> r)] *)
Definition BufferImpl_host (dimensions : nat) (host_data : pointer)
    (r : RangeImpl) (h : heap T) : BufferImpl * heap T :=
  let (allocation, h') := multi_array_default dimensions h in
  (mkBufferImpl allocation
     (mk_multi_array_ref host_data (to_size_t <$> r)) (Some false), h').

(** [BufferImpl(const T * host_data, RangeImpl<dimensions> r)], the only
    constructor that writes [ReadOnly(true)], hands a [const T *] to the
    view over [T], whose constructor takes a [T *]: it cannot be
    instantiated and has no model here.  [ReadOnly] is a public data member
    of the struct (and of [buffer], which derives from it): a program sets
    the flag by assignment, [b.ReadOnly = v]. *)
Definition BufferImpl_set_ReadOnly (v : bool) (b : BufferImpl) : BufferImpl :=
  mkBufferImpl (Allocation b) (Access b) (Some v).

(** [BufferImpl(const T * start_iterator, const T * end_iterator)]: the
    initialiser list names [Allocation] and [Access] only, the body assigns
    the elements. *)
Definition BufferImpl_iterators (start_iterator end_iterator : pointer)
    (h : heap T) : option (BufferImpl * heap T) :=
  if decide (block start_iterator = block end_iterator
             ∧ offset start_iterator ≤ offset end_iterator) then
    let distance := offset end_iterator - offset start_iterator in
    let (allocation, h1) := multi_array_new T_default h [distance] in
    elements ← load_range h1 start_iterator (Z.to_nat distance);
    h2 ← multi_array_assign h1 allocation elements;
    Some (mkBufferImpl allocation allocation None, h2)
  else None.

(** [BufferImpl(const BufferImpl<T, dimensions> &b)]:
    "Create a new BufferImpl from an old one, with a new allocation". *)
Definition BufferImpl_copy (b : BufferImpl) (h : heap T)
    : option (BufferImpl * heap T) :=
  '(allocation, h') ← multi_array_copy h (Access b);
  Some (mkBufferImpl allocation allocation (Some false), h').

Record AccessorImpl := mkAccessorImpl {
  accessor_mode : access.mode;
  accessor_target : access.target;
  Array : multi_array_ref
}.

(** [AccessorImpl(BufferImpl<T, dimensions> &targetBuffer) :
    Array(targetBuffer.Access) {}] *)
Definition AccessorImpl_new (mode : access.mode) (target : access.target)
    (targetBuffer : BufferImpl) : AccessorImpl :=
  mkAccessorImpl mode target (Access targetBuffer).

(** [get_access<mode, target>() { return { *this }; }] *)
Definition get_access (mode : access.mode) (target : access.target)
    (b : BufferImpl) : AccessorImpl :=
  AccessorImpl_new mode target b.

(** [operator[](std::size_t Index)], the subscript of the array itself: on
    an array of one dimension the range-checked element [Index] places
    after the base; on an array of more dimensions the result is a
    sub-array and no element, which has no model here ([None]). *)
Definition subscript_size_t (a : AccessorImpl) (Index : Z) : option pointer :=
  match extent_list (Array a) with
  | [n] =>
      if decide (0 ≤ Index < n)
      then Some (mkpointer (block (base (Array a)))
                   (offset (base (Array a)) + Index))
      else None
  | _ => None
  end.

(** [operator[](IdImpl<dimensionality> Index)] *)
Definition subscript_id (a : AccessorImpl) (Index : IdImpl) : option pointer :=
  access_element (Array a) Index.

(** [operator[](ItemImpl<dimensionality> Index)] *)
Definition subscript_item (a : AccessorImpl) (Index : ItemImpl.t)
    : option pointer :=
  access_element (Array a) (ItemImpl.get_global Index).

(** [a[Index] = v] and the value of [a[Index]]. *)
Definition accessor_write (a : AccessorImpl) (Index : IdImpl) (v : T)
    (h : heap T) : option (heap T) :=
  p ← subscript_id a Index; store h p v.

Definition accessor_read (a : AccessorImpl) (Index : IdImpl) (h : heap T)
    : option T :=
  p ← subscript_id a Index; load h p.

(** [Buffer.get_view(mode, target)] as the specification words it: a
    contract violation ([None]) if [mode] requests write access and
    [read_only] is true, a view bound to the buffer otherwise. *)
Definition get_view (mode : access.mode) (target : access.target)
    (b : BufferImpl) : option AccessorImpl :=
  if decide (access.writes mode = true ∧ ReadOnly b = Some true)
  then None
  else Some (mkAccessorImpl mode target (Access b)).
End Buffer.

(** ** include/CL/sycl.hpp *)

Module sycl.
(** [range<dims>] and [id<dims>] derive from [SmallArray123], whose
    declaration is not part of these sources; they are held like the
    coordinates above, [id] with [std::ptrdiff_t] elements. *)
Abbreviation range := (list Z) (only parsing).
Abbreviation id := (list Z) (only parsing).

(** Modelled from the spec: the elementwise operators of [SmallArray123]
    (the declaration is missing), "[add(a,b)], [multiply(a,b)],
    [ceiling_divide(a,b)] — all elementwise", the division computing
    [(a[i] + b[i] - 1) / b[i]]: the operators of [RangeImpl]. *)
Definition SmallArray123_div (dims : nat) (a b : list Z) : option (list Z) :=
  operator_div dims a b.
Definition SmallArray123_mul (dims : nat) (a b : list Z) : option (list Z) :=
  operator_mul dims a b.
Definition SmallArray123_add (dims : nat) (a b : list Z) : option (list Z) :=
  operator_add dims a b.

Module nd_range.
Record t := mk {
  GlobalRange : range;
  LocalRange : range;
  Offset : id
}.

Definition get_global_range (r : t) : range := GlobalRange r.
Definition get_local_range (r : t) : range := LocalRange r.

(** [get_group_range() const { return GlobalRange/LocalRange; }] *)
Definition get_group_range (dims : nat) (r : t) : option range :=
  SmallArray123_div dims (GlobalRange r) (LocalRange r).

Definition get_offset (r : t) : id := Offset r.
End nd_range.

Module item.
Record t := mk {
  Range : range;
  GlobalIndex : id;
  Offset : id
}.

(** [id<dims> get_global_id() const { return GlobalIndex; }] *)
Definition get_global_id (it : t) : id := GlobalIndex it.

(** [size_t get(int dimension) const { return GlobalIndex[dimension]; }]:
    the [std::ptrdiff_t] element is converted to the return type. *)
Definition get (it : t) (dimension : nat) : option Z :=
  to_size_t <$> GlobalIndex it !! dimension.

(** [auto &operator[](int dimension)], read *)
Definition subscript (it : t) (dimension : nat) : option Z :=
  GlobalIndex it !! dimension.

Definition get_global_range (it : t) : range := Range it.
Definition get_offset (it : t) : id := Offset it.
Definition set_global (Index : id) (it : t) : t :=
  mk (Range it) Index (Offset it).
End item.

Module nd_item.
Record t := mk {
  GlobalIndex : id;
  LocalIndex : id;
  NDRange : nd_range.t
}.

Definition get_global_id (it : t) : id := GlobalIndex it.
Definition get_local_id (it : t) : id := LocalIndex it.
Definition get_global_range (it : t) : range :=
  nd_range.get_global_range (NDRange it).
Definition get_local_range (it : t) : range :=
  nd_range.get_local_range (NDRange it).

(** [get_group_id() const { return get_global_id()/get_local_range(); }] *)
Definition get_group_id (dims : nat) (it : t) : option id :=
  SmallArray123_div dims (get_global_id it) (get_local_range it).

Definition get_offset (it : t) : id := nd_range.get_offset (NDRange it).
Definition get_nd_range (it : t) : nd_range.t := NDRange it.
Definition set_local (Index : id) (it : t) : t :=
  mk (GlobalIndex it) Index (NDRange it).
Definition set_global (Index : id) (it : t) : t :=
  mk Index (LocalIndex it) (NDRange it).

(** The right-hand side of the relation a work-item is to satisfy,
    [get_group_id() * get_local_range() + get_local_id() + get_offset()]. *)
Definition derived_global_id (dims : nat) (it : t) : option id :=
  g ← get_group_id dims it;
  scaled ← SmallArray123_mul dims g (get_local_range it);
  shifted ← SmallArray123_add dims scaled (get_local_id it);
  SmallArray123_add dims shifted (get_offset it).
End nd_item.

Module group.
Record t := mk {
  NDR : nd_range.t;
  Id : id
}.

Definition get_group_id (g : t) : id := Id g.
Definition get_local_range (g : t) : range := nd_range.get_local_range (NDR g).
Definition get_global_range (g : t) : range := nd_range.get_global_range (NDR g).
Definition get_offset (g : t) : id := nd_range.get_offset (NDR g).
Definition get_nd_range (g : t) : nd_range.t := NDR g.

(** [std::size_t get(int dimension) const { return Id[dimension]; }] *)
Definition get (g : t) (dimension : nat) : option Z :=
  to_size_t <$> Id g !! dimension.
End group.

(** Modelled from the spec: [ParallelForWorkitem], which
    [parallel_for_workitem] forwards to and whose definition is missing.
    "Enumerates every local coordinate in [0, group_ref.space.local()),
    derives global_index = group_ref.group_id * group_ref.space.local()
    + local_index + group_ref.space.offset(), builds a
    WorkItem{global_index, local_index, group_ref.space}, invokes
    item_callback(work_item)." *)
Definition ParallelForWorkitem {St : Type} (dims : nat) (g : group.t)
    (f : nd_item.t → St → option St) (s : St) : option St :=
  snd <$> ParallelForIterate dims dims (group.get_local_range g)
    (λ local_index s,
       scaled ← SmallArray123_mul dims (group.get_group_id g)
                  (group.get_local_range g);
       shifted ← SmallArray123_add dims scaled local_index;
       global_index ← SmallArray123_add dims shifted (group.get_offset g);
       f (nd_item.mk global_index local_index (group.get_nd_range g)) s)
    (RangeImpl_default dims) s.
End sycl.

(** * Properties *)

(** ** The elementwise loop *)

Lemma foldl_seq_S {A : Type} (f : A → nat → A) (acc : A) (n : nat) :
  foldl f acc (seq 0 (S n)) = f (foldl f acc (seq 0 n)) n.
Proof. by rewrite seq_S, foldl_app. Qed.

Section Elementwise.
Variable op : Z → Z → option Z.
Variables a b : RangeImpl.
Variable D : nat.

(** After [n] iterations the first [n] components are written, the others
    still hold the zero of the default constructor. *)
Lemma elementwise_prefix_Some (n : nat) (r : RangeImpl) :
  (n ≤ D)%nat →
  foldl (elementwise_step op a b) (Some (RangeImpl_default D)) (seq 0 n) = Some r →
  length r = D
  ∧ (∀ i, (i < n)%nat → ∃ x y v,
        a !! i = Some x ∧ b !! i = Some y ∧ op x y = Some v ∧ r !! i = Some v)
  ∧ (∀ i, (n ≤ i < D)%nat → r !! i = Some 0).
Proof.
  revert r. induction n as [|n IH]; intros r Hn.
  - simpl. intros [= <-]. unfold RangeImpl_default.
    split; [by rewrite length_replicate|].
    split; [intros i Hi; lia|].
    intros i Hi. apply lookup_replicate_2. lia.
  - rewrite foldl_seq_S.
    destruct (foldl _ _ (seq 0 n)) as [r0|] eqn:Hr0; [|done].
    destruct (IH r0) as (Hlen & Hset & Hzero); [lia|done|].
    unfold elementwise_step. simpl.
    destruct (a !! n) as [x|] eqn:Hx; [|done]. simpl.
    destruct (b !! n) as [y|] eqn:Hy; [|done]. simpl.
    destruct (op x y) as [v|] eqn:Hv; [|done]. simpl.
    case_decide; [|done]. intros [= <-].
    split; [by rewrite length_insert|].
    split.
    + intros i Hi. destruct (decide (i = n)) as [->|Hne].
      * exists x, y, v. by rewrite list_lookup_insert_eq.
      * destruct (Hset i) as (x' & y' & v' & ? & ? & ? & ?); [lia|].
        exists x', y', v'. by rewrite list_lookup_insert_ne.
    + intros i Hi. rewrite list_lookup_insert_ne by lia. apply Hzero. lia.
Qed.

Lemma elementwise_prefix_is_Some (n : nat) :
  (n ≤ D)%nat →
  (∀ i, (i < n)%nat → ∃ x y,
      a !! i = Some x ∧ b !! i = Some y ∧ is_Some (op x y)) →
  is_Some (foldl (elementwise_step op a b) (Some (RangeImpl_default D)) (seq 0 n)).
Proof.
  induction n as [|n IH]; intros Hn Hdef; [by eexists|].
  rewrite foldl_seq_S.
  destruct IH as [r0 Hr0]; [lia|intros i Hi; apply Hdef; lia|].
  rewrite Hr0.
  destruct (elementwise_prefix_Some n r0) as (Hlen & _); [lia|done|].
  destruct (Hdef n) as (x & y & Hx & Hy & v & Hv); [lia|].
  unfold elementwise_step. simpl. rewrite Hx. simpl. rewrite Hy. simpl.
  rewrite Hv. simpl. rewrite decide_True by lia. by eexists.
Qed.

Lemma elementwise_Some (r : RangeImpl) :
  elementwise op D a b = Some r →
  length r = D
  ∧ ∀ i, (i < D)%nat → ∃ x y v,
      a !! i = Some x ∧ b !! i = Some y ∧ op x y = Some v ∧ r !! i = Some v.
Proof.
  intros H. destruct (elementwise_prefix_Some D r) as (? & ? & _); auto.
Qed.

Lemma elementwise_is_Some :
  (∀ i, (i < D)%nat → ∃ x y,
      a !! i = Some x ∧ b !! i = Some y ∧ is_Some (op x y)) →
  is_Some (elementwise op D a b).
Proof. intros H. by apply elementwise_prefix_is_Some. Qed.

(** On operands of length [D] the loop is the componentwise map. *)
Lemma elementwise_mapM :
  length a = D → length b = D →
  elementwise op D a b = mapM (λ p, op p.1 p.2) (zip a b).
Proof.
  intros Ha Hb.
  destruct (elementwise op D a b) as [r|] eqn:Hr.
  - symmetry. apply mapM_Some. apply elementwise_Some in Hr as [Hlen Hr].
    apply Forall2_same_length_lookup. split.
    { rewrite length_zip_with. lia. }
    intros i [x y] v Hxy Hv.
    apply lookup_zip_with_Some in Hxy as (x' & y' & [= <- <-] & Hx & Hy).
    destruct (Hr i) as (x' & y' & v' & Hx' & Hy' & Hop & Hv').
    { apply lookup_lt_Some in Hx. lia. }
    simpl. congruence.
  - destruct (mapM _ (zip a b)) as [l|] eqn:Hl; [|done].
    apply mapM_Some in Hl.
    destruct elementwise_is_Some as [r' Hr']; [|congruence].
    intros i Hi.
    destruct (lookup_lt_is_Some_2 a i) as [x Hx]; [lia|].
    destruct (lookup_lt_is_Some_2 b i) as [y Hy]; [lia|].
    exists x, y. split; [done|]. split; [done|].
    assert (zip a b !! i = Some (x, y)) as Hxy.
    { apply lookup_zip_with_Some. eauto. }
    destruct (Forall2_lookup_l _ _ _ _ _ Hl Hxy) as (v & _ & Hv).
    by exists v.
Qed.
End Elementwise.

(** ** Machine integers *)

Lemma wrap_intptr_in_range (z : Z) :
  INTPTR_MIN ≤ z ≤ INTPTR_MAX → wrap_intptr z = z.
Proof.
  unfold INTPTR_MIN, INTPTR_MAX, wrap_intptr, word_width. simpl Z.sub.
  intros H. rewrite Z.mod_small; lia.
Qed.

Lemma wrap_intptr_sub_l (z k : Z) :
  wrap_intptr (wrap_intptr z - k) = wrap_intptr (z - k).
Proof.
  unfold wrap_intptr. f_equal.
  replace ((z + 2 ^ (word_width - 1)) `mod` 2 ^ word_width
           - 2 ^ (word_width - 1) - k + 2 ^ (word_width - 1))
    with ((z + 2 ^ (word_width - 1)) `mod` 2 ^ word_width - k) by lia.
  rewrite Zminus_mod_idemp_l. f_equal. lia.
Qed.

Lemma quot_is_ceiling (x y : Z) :
  0 < x → 0 < y → is_ceiling x y ((x + y - 1) `quot` y).
Proof.
  intros Hx Hy. unfold is_ceiling.
  rewrite Z.quot_div_nonneg by lia.
  pose proof (Z.div_mod (x + y - 1) y) as Hdm.
  pose proof (Z.mod_pos_bound (x + y - 1) y Hy) as Hb.
  nia.
Qed.

Lemma intptr_div_up_Some (x y q : Z) :
  intptr_div_up x y = Some q → q = wrap_intptr (x + y - 1) `quot` y.
Proof.
  unfold intptr_div_up, intptr_div. rewrite wrap_intptr_sub_l.
  repeat case_decide; congruence.
Qed.

(** ** Coordinates *)

(** The division returns a coordinate when no component division traps. *)
Lemma operator_div_is_Some (D : nat) (a b : RangeImpl) :
  length a = D →
  Forall2 (λ x y, is_Some (intptr_div_up x y)) a b →
  is_Some (operator_div D a b).
Proof.
  intros Ha Hdef.
  assert (length b = D) as Hb by (by apply Forall2_length in Hdef; lia).
  apply elementwise_is_Some. intros i Hi.
  destruct (lookup_lt_is_Some_2 a i) as [x Hx]; [lia|].
  destruct (lookup_lt_is_Some_2 b i) as [y Hy]; [lia|].
  exists x, y. split; [done|]. split; [done|].
  exact (Forall2_lookup_lr _ _ _ _ _ _ Hdef Hx Hy).
Qed.

(** C5 (as amended): wherever no component division traps, [operator /]
    returns a coordinate of the same rank whose component [i] is
    [(a[i] + b[i] - 1) / b[i]] in [std::intptr_t] arithmetic (the sum reduced
    to the word, the quotient truncated); for positive [a[i]] and [b[i]] with
    [a[i] + b[i] - 1] not above [INTPTR_MAX] this is the ceiling of
    [a[i] / b[i]]. *)
Theorem operator_div_ceiling (D : nat) (a b : RangeImpl) :
  length a = D →
  Forall2 (λ x y, is_Some (intptr_div_up x y)) a b →
  ∃ r, operator_div D a b = Some r ∧ length r = D
    ∧ ∀ i x y, a !! i = Some x → b !! i = Some y →
        ∃ q, r !! i = Some q
          ∧ q = wrap_intptr (x + y - 1) `quot` y
          ∧ (0 < x → 0 < y → x + y - 1 ≤ INTPTR_MAX →
             q = (x + y - 1) `quot` y ∧ is_ceiling x y q).
Proof.
  intros Ha Hdef.
  destruct (operator_div_is_Some D a b Ha Hdef) as [r Hr].
  exists r. split; [done|].
  apply elementwise_Some in Hr as [Hlen Hr]. split; [done|].
  intros i x y Hx Hy.
  destruct (Hr i) as (x' & y' & q & Hx' & Hy' & Hq & Hrq).
  { apply lookup_lt_Some in Hx. lia. }
  simplify_eq. exists q. split; [done|].
  apply intptr_div_up_Some in Hq. split; [done|].
  intros H0x H0y Hfit.
  assert (wrap_intptr (x + y - 1) = x + y - 1) as Hw.
  { apply wrap_intptr_in_range. unfold INTPTR_MIN, INTPTR_MAX in *.
    simpl in *. lia. }
  rewrite Hw in Hq. subst q. split; [done|]. by apply quot_is_ceiling.
Qed.

Lemma operator_div_ceiling_witness :
  ∃ r, operator_div 2 [5; 4] [2; 2] = Some r ∧ length r = 2%nat
    ∧ ∀ i x y, [5; 4] !! i = Some x → [2; 2] !! i = Some y →
        ∃ q, r !! i = Some q
          ∧ q = wrap_intptr (x + y - 1) `quot` y
          ∧ (0 < x → 0 < y → x + y - 1 ≤ INTPTR_MAX →
             q = (x + y - 1) `quot` y ∧ is_ceiling x y q).
Proof.
  apply (operator_div_ceiling 2 [5; 4] [2; 2]).
  - reflexivity.
  - repeat constructor; vm_compute; eauto.
Defined.

(** C5, the claim as stated fails: both components positive, yet the
    component of the quotient is negative, not the ceiling [2 ^ 62]. *)
Lemma operator_div_ceiling_overflow :
  0 < INTPTR_MAX ∧ 0 < 2
  ∧ operator_div 1 [INTPTR_MAX] [2] = Some [- 2 ^ 62]
  ∧ ¬ is_ceiling INTPTR_MAX 2 (- 2 ^ 62)
  ∧ - 2 ^ 62 ≠ (INTPTR_MAX + 2 - 1) `quot` 2.
Proof.
  split; [done|]. split; [done|]. split; [reflexivity|].
  split; [|done]. unfold is_ceiling. vm_compute. intros [_ H]. by apply H.
Qed.

Lemma intptr_div_up_fits (x y : Z) :
  0 ≤ x → 0 < y → x + y - 1 ≤ INTPTR_MAX →
  intptr_div_up x y = Some ((x + y - 1) `quot` y)
  ∧ is_ceiling x y ((x + y - 1) `quot` y).
Proof.
  intros Hx Hy Hfit.
  assert (INTPTR_MAX = 2 ^ 63 - 1) as HM by reflexivity.
  assert (INTPTR_MIN = - 2 ^ 63) as Hm by reflexivity.
  unfold intptr_div_up, intptr_div. rewrite wrap_intptr_sub_l.
  rewrite wrap_intptr_in_range by lia.
  rewrite decide_False by lia. rewrite decide_False by lia.
  split; [done|]. unfold is_ceiling.
  rewrite Z.quot_div_nonneg by lia.
  pose proof (Z.div_mod (x + y - 1) y) as Hdm.
  pose proof (Z.mod_pos_bound (x + y - 1) y Hy) as Hb.
  nia.
Qed.

(** On extents that fit, the loop of [operator /] computes the ceiling
    division of the specification. *)
Lemma operator_div_fits (D : nat) (a b : RangeImpl) :
  length a = D →
  Forall2 (λ x y, 0 ≤ x ∧ 0 < y ∧ x + y - 1 ≤ INTPTR_MAX) a b →
  operator_div D a b = Some (zip_with (λ x y, (x + y - 1) `quot` y) a b).
Proof.
  intros Ha Hfit.
  assert (length b = D) as Hb by (by apply Forall2_length in Hfit; lia).
  unfold operator_div. rewrite elementwise_mapM by done.
  apply mapM_Some. clear Ha Hb.
  induction Hfit as [|x y a b (Hx & Hy & Hxy) _ IH]; simpl; constructor;
    [|done].
  simpl. by apply intptr_div_up_fits.
Qed.

(** C6, the claim as stated fails: global, local and offset have one rank,
    yet for the global extent [INTPTR_MAX] and the local extent 2 the group
    range is [-2 ^ 62] where the ceiling division is [2 ^ 62], and for a
    local extent 0 there is no group range at all. *)
Lemma get_group_range_not_ceiling_divide :
  NDRangeImpl.get_group_range 1 (NDRangeImpl.mk [INTPTR_MAX] [2] [0])
    = Some [- 2 ^ 62]
  ∧ ceiling_divide [INTPTR_MAX] [2] = Some [2 ^ 62]
  ∧ NDRangeImpl.get_group_range 1 (NDRangeImpl.mk [INTPTR_MAX] [2] [0])
    ≠ ceiling_divide [INTPTR_MAX] [2]
  ∧ NDRangeImpl.get_group_range 1 (NDRangeImpl.mk [4] [0] [0]) = None.
Proof.
  split; [reflexivity|]. split; [reflexivity|]. split; [|reflexivity].
  vm_compute. discriminate.
Qed.

(** C6 (as amended): for an ND-range built from a global extent without a
    negative component, a local extent with positive components and an
    offset, all of rank [D], with [global + local - 1] not above
    [INTPTR_MAX] in every dimension, [get_group_range] returns the
    elementwise ceiling division of the specification, computed on the
    integers: component [i] is the ceiling of [global[i] / local[i]].
    Global [{4,4}] with local [{2,2}] yields [{2,2}]. *)
Theorem get_group_range_ceiling_divide
    (D : nat) (global_size local_size : RangeImpl) (offset : IdImpl) :
  length global_size = D → length offset = D →
  Forall2 (λ x y, 0 ≤ x ∧ 0 < y ∧ x + y - 1 ≤ INTPTR_MAX)
    global_size local_size →
  ∃ q,
    NDRangeImpl.get_group_range D
      (NDRangeImpl.mk global_size local_size offset) = Some q
    ∧ ceiling_divide global_size local_size = Some q
    ∧ length q = D
    ∧ (∀ i x y, global_size !! i = Some x → local_size !! i = Some y →
         ∃ qi, q !! i = Some qi ∧ is_ceiling x y qi)
    ∧ NDRangeImpl.get_group_range 2 (NDRangeImpl.mk [4; 4] [2; 2] [0; 0])
      = Some [2; 2].
Proof.
  intros Hg _ Hfit.
  assert (length local_size = D) as Hl
    by (by apply Forall2_length in Hfit; lia).
  exists (zip_with (λ x y, (x + y - 1) `quot` y) global_size local_size).
  unfold NDRangeImpl.get_group_range. simpl.
  split; [by apply operator_div_fits|].
  split; [unfold ceiling_divide; by rewrite decide_True by lia|].
  split; [rewrite length_zip_with; lia|].
  split; [|reflexivity].
  intros i x y Hx Hy. exists ((x + y - 1) `quot` y). split.
  - rewrite lookup_zip_with, Hx. simpl. by rewrite Hy.
  - destruct (Forall2_lookup_lr _ _ _ _ _ _ Hfit Hx Hy) as (? & ? & ?).
    by apply intptr_div_up_fits.
Qed.

Lemma get_group_range_ceiling_divide_witness :
  ∃ q,
    NDRangeImpl.get_group_range 2 (NDRangeImpl.mk [6; 5] [4; 2] [1; 0])
      = Some q
    ∧ ceiling_divide [6; 5] [4; 2] = Some q
    ∧ length q = 2%nat
    ∧ (∀ i x y, [6; 5] !! i = Some x → [4; 2] !! i = Some y →
         ∃ qi, q !! i = Some qi ∧ is_ceiling x y qi)
    ∧ NDRangeImpl.get_group_range 2 (NDRangeImpl.mk [4; 4] [2; 2] [0; 0])
      = Some [2; 2].
Proof.
  apply (get_group_range_ceiling_divide 2 [6; 5] [4; 2] [1; 0]).
  - reflexivity.
  - reflexivity.
  - repeat constructor; try lia; vm_compute; discriminate.
Defined.

(** ** Constructors of RangeImpl *)

Lemma RangeImpl_default_zero (D : nat) (r : RangeImpl) :
  RangeImpl_construct D ctor_default = Some r →
  length r = D ∧ Forall (λ x, x = 0) r.
Proof.
  intros [= <-]. unfold RangeImpl_default.
  split; [apply length_replicate|]. apply Forall_replicate. done.
Qed.

Lemma RangeImpl_initializer_list_length (D : nat) (l : list Z) (r : RangeImpl) :
  RangeImpl_construct D (ctor_initializer_list l) = Some r → length r = D.
Proof. simpl. case_decide; [|done]. by intros [= <-]. Qed.

(** C7: the constructor [vector(size_type)] that [RangeImpl<2>] inherits
    builds a value of five components, although the default constructor
    gives two zeros and the initializer-list constructor asserts the
    length. *)
Theorem RangeImpl_inherited_constructor_length :
  RangeImpl_construct 2 (ctor_vector_count 5) = Some [0; 0; 0; 0; 0]
  ∧ RangeImpl_built 2 [0; 0; 0; 0; 0]
  ∧ length [0; 0; 0; 0; 0] ≠ 2%nat
  ∧ IdImpl_construct 2 (ctor_vector_fill 3 7) = Some [7; 7; 7]
  ∧ RangeImpl_construct 2 ctor_default = Some [0; 0]
  ∧ RangeImpl_construct 2 (ctor_initializer_list [1; 2; 3]) = None.
Proof.
  split; [reflexivity|]. split.
  { by apply (built_direct 2 (ctor_vector_count 5)). }
  split; [simpl; lia|]. by repeat split.
Qed.

(** ** item *)

(** C10: [item::get] converts the [std::ptrdiff_t] component to
    [std::size_t]; for a negative component it returns the component
    reduced modulo [2 ^ word_width], not the negative value, while
    [get_global_id] hands the signed component back unchanged. *)
Theorem item_get_size_t (it : sycl.item.t) (dimension : nat) (v : Z) :
  sycl.item.GlobalIndex it !! dimension = Some v →
  INTPTR_MIN ≤ v < 0 →
  sycl.item.get it dimension = Some (v `mod` 2 ^ word_width)
  ∧ v `mod` 2 ^ word_width = v + 2 ^ word_width
  ∧ sycl.item.get it dimension ≠ Some v
  ∧ sycl.item.get_global_id it !! dimension = Some v.
Proof.
  intros Hv Hneg. unfold sycl.item.get, sycl.item.get_global_id, to_size_t.
  rewrite Hv. simpl.
  assert (v `mod` 2 ^ word_width = v + 2 ^ word_width) as Hmod.
  { unfold INTPTR_MIN, word_width in *. simpl in Hneg.
    symmetry. apply (Z.mod_unique_pos _ _ (-1)). all: lia. }
  split; [done|]. split; [done|]. split; [|done].
  rewrite Hmod. unfold word_width. intros [= H]. lia.
Qed.

Lemma item_get_size_t_witness :
  sycl.item.get (sycl.item.mk [4; 4] [2; -1] [0; -3]) 1
    = Some ((-1) `mod` 2 ^ word_width)
  ∧ (-1) `mod` 2 ^ word_width = -1 + 2 ^ word_width
  ∧ sycl.item.get (sycl.item.mk [4; 4] [2; -1] [0; -3]) 1 ≠ Some (-1)
  ∧ sycl.item.get_global_id (sycl.item.mk [4; 4] [2; -1] [0; -3]) !! 1%nat
    = Some (-1).
Proof.
  apply (item_get_size_t (sycl.item.mk [4; 4] [2; -1] [0; -3]) 1 (-1)).
  - reflexivity.
  - vm_compute. split; [discriminate | reflexivity].
Defined.

(** ** The offset of an element *)

Lemma element_offset_Some (extents indices : list Z) (o : Z) :
  element_offset extents indices = Some o →
  Forall2 (λ i e, 0 ≤ i < e) (take (length extents) indices) extents
  ∧ 0 ≤ o < product extents.
Proof.
  revert indices o.
  induction extents as [|e extents IH]; intros indices o; simpl.
  - intros [= <-]. rewrite take_0. split; [constructor|].
    unfold product. simpl. lia.
  - destruct indices as [|i indices]; [done|].
    case_decide as Hi; [|done].
    destruct (element_offset extents indices) as [o'|] eqn:Ho'; [|done].
    simpl. intros [= <-]. destruct (IH _ _ Ho') as [Hall Hb].
    split; [by constructor|]. unfold product in *. simpl. nia.
Qed.

Lemma element_offset_is_Some (extents indices : list Z) :
  Forall2 (λ i e, 0 ≤ i < e) (take (length extents) indices) extents →
  is_Some (element_offset extents indices).
Proof.
  revert indices.
  induction extents as [|e extents IH]; intros indices; simpl;
    [by eexists|].
  destruct indices as [|i indices]; simpl; [by inversion 1|].
  intros H. apply Forall2_cons in H as [Hi H].
  rewrite decide_True by done. destruct (IH _ H) as [o ->]. by eexists.
Qed.

(** Two index lists with the same offset agree on the entries the access
    looks at. *)
Lemma element_offset_inj (extents indices indices' : list Z) (o : Z) :
  element_offset extents indices = Some o →
  element_offset extents indices' = Some o →
  take (length extents) indices = take (length extents) indices'.
Proof.
  revert indices indices' o.
  induction extents as [|e extents IH]; intros indices indices' o; simpl;
    [by rewrite !take_0|].
  destruct indices as [|i indices]; [done|].
  destruct indices' as [|j indices']; [done|].
  case_decide as Hi; [|done]. case_decide as Hj; [|done].
  destruct (element_offset extents indices) as [o1|] eqn:Ho1; [|done].
  destruct (element_offset extents indices') as [o2|] eqn:Ho2; [|done].
  simpl. intros [= <-] [= Heq].
  apply element_offset_Some in Ho1 as Hb1. destruct Hb1 as [_ Hb1].
  apply element_offset_Some in Ho2 as Hb2. destruct Hb2 as [_ Hb2].
  assert (i = j) as -> by nia.
  assert (o1 = o2) as -> by lia.
  f_equal. by eapply IH.
Qed.

(** ** Memory *)

Section MemoryFacts.
Context {T : Type}.
Implicit Types (h : heap T) (p q : pointer) (v : T).

Lemma load_range_block h p n elements :
  load_range h p n = Some elements → (block p < length h)%nat.
Proof.
  unfold load_range. case_decide; [|done].
  destruct (h !! block p) as [b|] eqn:Hb; [|done].
  intros _. by eapply lookup_lt_Some.
Qed.

Lemma store_block h p v h' :
  store h p v = Some h' → (block p < length h)%nat ∧ length h' = length h.
Proof.
  unfold store. case_decide; [|done].
  destruct (h !! block p) as [b|] eqn:Hb; [|done]. simpl.
  case_decide; [|done]. intros [= <-].
  split; [by eapply lookup_lt_Some|by rewrite length_insert].
Qed.

(** A store leaves the other blocks as they were. *)
Lemma load_store_other_block h p v h' q :
  store h p v = Some h' → block p ≠ block q → load h' q = load h q.
Proof.
  unfold store, load. case_decide; [|done].
  destruct (h !! block p) as [b|] eqn:Hb; [|done]. simpl.
  case_decide; [|done]. intros [= <-] Hne.
  by rewrite list_lookup_insert_ne.
Qed.

(** A store is read back from the same place. *)
Lemma load_store_same h p v h' :
  store h p v = Some h' → load h' p = Some v.
Proof.
  unfold store, load. case_decide; [|done].
  destruct (h !! block p) as [b|] eqn:Hb; [|done]. simpl.
  case_decide; [|done]. intros [= <-].
  rewrite list_lookup_insert_eq by (by eapply lookup_lt_Some). simpl.
  by rewrite list_lookup_insert_eq.
Qed.

(** Allocating leaves what could be loaded before as it was. *)
Lemma load_allocate h contents p :
  (block p < length h)%nat → load (allocate h contents).2 p = load h p.
Proof.
  intros Hp. unfold load, allocate. simpl. by rewrite lookup_app_l.
Qed.
End MemoryFacts.

(** ** Buffers *)

Section BufferFacts.
Context {T : Type}.
Implicit Types (h : heap T) (b c : BufferImpl).

(** The copy constructor puts the elements seen through [b.Access] into a
    new block and binds the copy to that block. *)
Lemma BufferImpl_copy_fresh b h c h1 :
  BufferImpl_copy b h = Some (c, h1) →
  ∃ elements,
    load_range h (base (Access b)) (Z.to_nat (num_elements (Access b)))
      = Some elements
    ∧ h1 = h ++ [elements]
    ∧ Access c = mk_multi_array_ref (mkpointer (length h) 0)
                   (extent_list (Access b))
    ∧ Allocation c = Access c
    ∧ ReadOnly c = Some false.
Proof.
  unfold BufferImpl_copy, multi_array_copy.
  destruct (load_range _ _ _) as [elements|] eqn:Hl; [|done]. simpl.
  intros [= <- <-]. by exists elements.
Qed.

Lemma access_element_block (a : multi_array_ref) Index p :
  access_element a Index = Some p → block p = block (base a).
Proof.
  unfold access_element.
  destruct (element_offset _ _); [|done]. by intros [= <-].
Qed.

(** X19: the copy is a snapshot: a write through an accessor of the
    original leaves every element read through an accessor of the copy as
    it was, and the other way round. *)
Lemma BufferImpl_copy_is_snapshot b h c h1 :
  BufferImpl_copy b h = Some (c, h1) →
  ∀ mode target mode' target' Index v h2 Index',
    (accessor_write (get_access mode target b) Index v h1 = Some h2 →
     accessor_read (get_access mode' target' c) Index' h2
     = accessor_read (get_access mode' target' c) Index' h1)
    ∧ (accessor_write (get_access mode target c) Index v h1 = Some h2 →
       accessor_read (get_access mode' target' b) Index' h2
       = accessor_read (get_access mode' target' b) Index' h1).
Proof.
  intros Hcopy mode target mode' target' Index v h2 Index'.
  destruct (BufferImpl_copy_fresh _ _ _ _ Hcopy)
    as (elements & Hload & -> & Hc & _).
  apply load_range_block in Hload.
  unfold accessor_write, accessor_read, subscript_id, get_access,
    AccessorImpl_new. simpl.
  split.
  - destruct (access_element (Access b) Index) as [p|] eqn:Hp; [|done].
    simpl. intros Hstore.
    destruct (access_element (Access c) Index') as [q|] eqn:Hq; [|done].
    simpl. apply (load_store_other_block _ _ _ _ _ Hstore).
    apply access_element_block in Hp, Hq. rewrite Hc in Hq. simpl in Hq.
    lia.
  - destruct (access_element (Access c) Index) as [p|] eqn:Hp; [|done].
    simpl. intros Hstore.
    destruct (access_element (Access b) Index') as [q|] eqn:Hq; [|done].
    simpl. apply (load_store_other_block _ _ _ _ _ Hstore).
    apply access_element_block in Hp, Hq. rewrite Hc in Hp. simpl in Hp.
    lia.
Qed.

(** Right after the copy every index reads through the copy what it reads
    through the original. *)
Lemma BufferImpl_copy_reads b h c h1 :
  BufferImpl_copy b h = Some (c, h1) →
  ∀ mode target Index,
    accessor_read (get_access mode target c) Index h1
    = accessor_read (get_access mode target b) Index h1.
Proof.
  intros Hcopy.
  destruct (BufferImpl_copy_fresh _ _ _ _ Hcopy)
    as (elements & Hload & -> & Hc & _).
  intros mode target Index.
  unfold accessor_read, subscript_id, get_access, AccessorImpl_new,
    access_element. simpl. rewrite Hc. simpl.
  destruct (element_offset _ _) as [o|] eqn:Ho; [|done]. simpl.
  apply element_offset_Some in Ho as [_ Ho].
  revert Hload. unfold load_range, load, num_elements. simpl.
  case_decide as Hoff; [|done].
  destruct (h !! block (base (Access b))) as [blk|] eqn:Hblk; [|done]. simpl.
  case_decide as Hfit; [|done]. intros [= <-].
  rewrite decide_True by lia. rewrite decide_True by lia.
  rewrite lookup_app_r by lia. rewrite Nat.sub_diag. simpl.
  rewrite (lookup_app_l_Some _ _ _ _ Hblk). simpl.
  rewrite lookup_take_lt by lia. rewrite lookup_drop. f_equal. lia.
Qed.

(** Every element of the copy can be written, and the write stays in the
    block of the copy. *)
Lemma BufferImpl_copy_writable b h c h1 :
  BufferImpl_copy b h = Some (c, h1) →
  ∀ mode target Index (v : T),
    is_Some (subscript_id (get_access mode target c) Index) →
    ∃ h2, accessor_write (get_access mode target c) Index v h1 = Some h2
      ∧ accessor_read (get_access mode target c) Index h2 = Some v
      ∧ ∀ mode' target' Index',
          accessor_read (get_access mode' target' b) Index' h2
          = accessor_read (get_access mode' target' b) Index' h1.
Proof.
  intros Hcopy mode target Index v [p Hp].
  destruct (BufferImpl_copy_fresh _ _ _ _ Hcopy)
    as (elements & Hload & -> & Hc & _).
  assert (is_Some (store (h ++ [elements]) p v)) as [h2 Hstore].
  { revert Hp. unfold subscript_id, get_access, AccessorImpl_new,
      access_element. simpl. rewrite Hc. simpl.
    destruct (element_offset _ _) as [o|] eqn:Ho; [|done]. simpl.
    intros [= <-]. apply element_offset_Some in Ho as [_ Ho].
    revert Hload. unfold load_range, num_elements.
    case_decide; [|done].
    destruct (h !! block (base (Access b))) as [blk|]; [|done]. simpl.
    case_decide; [|done]. intros [= <-].
    unfold store. simpl. rewrite decide_True by lia.
    rewrite lookup_app_r by lia. rewrite Nat.sub_diag. simpl.
    rewrite decide_True; [by eexists|].
    rewrite length_take, length_drop. lia. }
  exists h2. unfold accessor_write, accessor_read. rewrite Hp. simpl.
  split; [done|]. split; [by eapply load_store_same|].
  intros mode' target' Index'. unfold subscript_id, get_access,
    AccessorImpl_new. simpl.
  destruct (access_element (Access b) Index') as [q|] eqn:Hq; [|done]. simpl.
  apply (load_store_other_block _ _ _ _ _ Hstore).
  apply load_range_block in Hload.
  apply access_element_block in Hq.
  unfold subscript_id in Hp. apply access_element_block in Hp.
  simpl in Hp. rewrite Hc in Hp. simpl in Hp. lia.
Qed.

(** C9: copy construction of a buffer whose storage can be read yields a
    buffer whose [ReadOnly] flag is false, whatever the flag of the source.
    It is a copy, with the extents and the elements of the source, and a
    writable handle: a write through any of its accessors succeeds at every
    index of the buffer, is read back, and leaves the source as it was. *)
Theorem BufferImpl_copy_not_read_only b h :
  is_Some (load_range h (base (Access b))
             (Z.to_nat (num_elements (Access b)))) →
  ∃ c h',
    BufferImpl_copy b h = Some (c, h')
    ∧ ReadOnly c = Some false
    ∧ extent_list (Access c) = extent_list (Access b)
    ∧ (∀ mode target Index,
         accessor_read (get_access mode target c) Index h'
         = accessor_read (get_access mode target b) Index h')
    ∧ (∀ mode target Index (v : T),
         is_Some (subscript_id (get_access mode target c) Index) →
         ∃ h'', accessor_write (get_access mode target c) Index v h' = Some h''
           ∧ accessor_read (get_access mode target c) Index h'' = Some v
           ∧ ∀ mode' target' Index',
               accessor_read (get_access mode' target' b) Index' h''
               = accessor_read (get_access mode' target' b) Index' h').
Proof.
  intros [elements Hl].
  destruct (BufferImpl_copy b h) as [[c h']|] eqn:Hcopy.
  2:{ revert Hcopy. unfold BufferImpl_copy, multi_array_copy.
      rewrite Hl. done. }
  exists c, h'. split; [done|].
  destruct (BufferImpl_copy_fresh _ _ _ _ Hcopy) as (? & _ & _ & Hc & _ & Hro).
  split; [done|]. split; [by rewrite Hc|].
  split; [by eapply BufferImpl_copy_reads|].
  by eapply BufferImpl_copy_writable.
Qed.
End BufferFacts.

Lemma BufferImpl_copy_not_read_only_witness :
  let b := BufferImpl_set_ReadOnly true
             (BufferImpl_host 0 1 (mkpointer 0 0) [3] [[10; 20; 30]]).1 in
  let h : heap Z := (BufferImpl_host 0 1 (mkpointer 0 0) [3] [[10; 20; 30]]).2 in
  ReadOnly b = Some true
  ∧ ∃ c h',
      BufferImpl_copy b h = Some (c, h')
      ∧ ReadOnly c = Some false
      ∧ extent_list (Access c) = extent_list (Access b)
      ∧ (∀ mode target Index,
           accessor_read (get_access mode target c) Index h'
           = accessor_read (get_access mode target b) Index h')
      ∧ (∀ mode target Index (v : Z),
           is_Some (subscript_id (get_access mode target c) Index) →
           ∃ h'', accessor_write (get_access mode target c) Index v h'
                  = Some h''
             ∧ accessor_read (get_access mode target c) Index h'' = Some v
             ∧ ∀ mode' target' Index',
                 accessor_read (get_access mode' target' b) Index' h''
                 = accessor_read (get_access mode' target' b) Index' h').
Proof.
  intros b h. split; [reflexivity|].
  apply BufferImpl_copy_not_read_only. vm_compute. eauto.
Defined.

(** C1: the copy constructor takes a new allocation.  After [99] is written
    to element 1 through an accessor of the original, an accessor of the
    copy still reads [20] there; written through the copy, the original
    still reads [20]. *)
Theorem BufferImpl_copy_does_not_share :
  ∃ b h1 c h2,
    BufferImpl_iterators 0 (mkpointer 0 0) (mkpointer 0 3) [[10; 20; 30]]
      = Some (b, h1)
    ∧ BufferImpl_copy b h1 = Some (c, h2)
    ∧ base (Access c) ≠ base (Access b)
    ∧ (∃ h3,
         accessor_write (get_access access.write access.global_buffer b) [1] 99 h2
           = Some h3
         ∧ accessor_read (get_access access.read access.global_buffer b) [1] h3
           = Some 99
         ∧ accessor_read (get_access access.read access.global_buffer c) [1] h3
           = Some 20)
    ∧ (∃ h3,
         accessor_write (get_access access.write access.global_buffer c) [1] 99 h2
           = Some h3
         ∧ accessor_read (get_access access.read access.global_buffer c) [1] h3
           = Some 99
         ∧ accessor_read (get_access access.read access.global_buffer b) [1] h3
           = Some 20).
Proof.
  eexists _, _, _, _. split; [reflexivity|]. split; [reflexivity|].
  split; [simpl; congruence|].
  split; eexists; (split; [reflexivity|]); split; reflexivity.
Qed.

(** C8: built from the three elements [10, 20, 30], the buffer holds three
    elements equal to the source in order, and its [ReadOnly] member is the
    indeterminate value no initialiser wrote, not [false]. *)
Theorem BufferImpl_iterators_ReadOnly_indeterminate :
  ∃ b h,
    BufferImpl_iterators 0 (mkpointer 0 0) (mkpointer 0 3) [[10; 20; 30]]
      = Some (b, h)
    ∧ extent_list (Access b) = [3]
    ∧ load_range h (base (Access b)) 3 = Some [10; 20; 30]
    ∧ ReadOnly b = None
    ∧ ReadOnly b ≠ Some false
    ∧ ReadOnly (BufferImpl_new 0 [3] [[10; 20; 30]]).1 = Some false.
Proof.
  eexists _, _. split; [reflexivity|]. by repeat split.
Qed.

(** C4, the claim as stated fails: the buffer wraps host data and its flag
    is set, the request is for write access and the specified [get_view]
    rejects it; [get_access] returns an accessor and the write through it
    changes the wrapped storage. *)
Lemma get_access_write_on_read_only_accepted :
  let b := BufferImpl_set_ReadOnly true
             (BufferImpl_host 0 1 (mkpointer 0 0) [3] [[10; 20; 30]]).1 in
  let h : heap Z := (BufferImpl_host 0 1 (mkpointer 0 0) [3] [[10; 20; 30]]).2 in
  ReadOnly b = Some true
  ∧ access.writes access.write = true
  ∧ get_view access.write access.global_buffer b = None
  ∧ Some (get_access access.write access.global_buffer b)
    ≠ get_view access.write access.global_buffer b
  ∧ accessor_write (get_access access.write access.global_buffer b) [1] 99 h
    = Some [[10; 99; 30]; []].
Proof. simpl. by repeat split. Qed.

(** C4 (as amended): [get_access] never rejects a request.  On a buffer
    wrapping [host_data] whose [ReadOnly] flag is true every mode, writing
    ones included, gets an accessor bound to the wrapped storage; for a
    read mode this is the view the specification grants.  Through such an
    accessor an element that exists is read as the wrapped element, and a
    write to it succeeds and changes the wrapped storage. *)
Theorem get_access_never_rejects {T : Type} (T_default : T)
    (dimensions : nat) (host_data : pointer) (r : RangeImpl) (h : heap T)
    (mode : access.mode) (target : access.target) :
  let b := BufferImpl_set_ReadOnly true
             (BufferImpl_host T_default dimensions host_data r h).1 in
  let h' := (BufferImpl_host T_default dimensions host_data r h).2 in
  ReadOnly b = Some true
  ∧ Array (get_access mode target b)
    = mk_multi_array_ref host_data (to_size_t <$> r)
  ∧ (access.writes mode = false →
     get_view mode target b = Some (get_access mode target b))
  ∧ ∀ Index o x,
      element_offset (to_size_t <$> r) Index = Some o →
      load h (mkpointer (block host_data) (offset host_data + o)) = Some x →
      accessor_read (get_access mode target b) Index h' = Some x
      ∧ ∀ v, ∃ h'',
          accessor_write (get_access mode target b) Index v h' = Some h''
          ∧ load h'' (mkpointer (block host_data) (offset host_data + o))
            = Some v
          ∧ accessor_read (get_access mode target b) Index h'' = Some v.
Proof.
  simpl. split; [done|]. split; [done|]. split.
  - intros Hmode. unfold get_view. simpl.
    rewrite decide_False; [done|]. intros [? _]. congruence.
  - intros Index o x Ho Hx.
    unfold accessor_read, accessor_write, subscript_id, access_element. simpl.
    rewrite Ho. simpl.
    set (p := mkpointer (block host_data) (offset host_data + o)) in *.
    assert (block p < length h)%nat as Hp.
    { revert Hx. unfold load. case_decide; [|done].
      destruct (h !! block p) eqn:Hb; [|done]. intros _.
      by eapply lookup_lt_Some. }
    split.
    { rewrite <- Hx. by apply (load_allocate h). }
    intros v.
    assert (is_Some (store (h ++ [replicate
              (Z.to_nat (product (replicate dimensions 0))) T_default]) p v))
      as [h'' Hstore].
    { revert Hx. unfold load, store. case_decide; [|done].
      destruct (h !! block p) as [blk|] eqn:Hblk; [|done]. simpl.
      intros Hx. rewrite (lookup_app_l_Some _ _ _ _ Hblk). simpl.
      rewrite decide_True by (by eapply lookup_lt_Some). by eexists. }
    exists h''. split; [done|].
    split; by eapply load_store_same.
Qed.

(** The iterator-pair constructor, for any source inside an existing block:
    one extent, the distance; the elements of the source, in order; no
    value for [ReadOnly]. *)
Lemma BufferImpl_iterators_elements {T : Type} (T_default : T)
    (start_iterator end_iterator : pointer) (h : heap T) b h' :
  (block start_iterator < length h)%nat →
  BufferImpl_iterators T_default start_iterator end_iterator h = Some (b, h') →
  let distance := offset end_iterator - offset start_iterator in
  extent_list (Access b) = [distance]
  ∧ (∃ elements,
       load_range h start_iterator (Z.to_nat distance) = Some elements
       ∧ length elements = Z.to_nat distance
       ∧ load_range h' (base (Access b)) (Z.to_nat distance) = Some elements)
  ∧ ReadOnly b = None.
Proof.
  intros Hblock. unfold BufferImpl_iterators.
  case_decide as Hse; [|done]. destruct Hse as [_ Hle].
  unfold multi_array_new, allocate. cbv zeta.
  assert (∀ z, product [z] = z) as Hprod.
  { intros z. unfold product. simpl. lia. }
  rewrite (Hprod (offset end_iterator - offset start_iterator)).
  destruct (load_range (h ++ _) start_iterator _) as [elements|] eqn:Hl; [|done].
  simpl.
  assert (load_range h start_iterator
            (Z.to_nat (offset end_iterator - offset start_iterator))
          = Some elements
          ∧ length elements
            = Z.to_nat (offset end_iterator - offset start_iterator))
    as [Hl' Hlen].
  { revert Hl. unfold load_range. case_decide; [|done].
    rewrite lookup_app_l by done.
    destruct (h !! block start_iterator) as [blk|]; [|done]. simpl.
    case_decide; [|done]. intros [= <-]. split; [done|].
    rewrite length_take, length_drop. lia. }
  unfold multi_array_assign, num_elements. simpl.
  rewrite lookup_app_r by lia. rewrite Nat.sub_diag. simpl.
  rewrite !Z.mul_1_r, length_replicate. rewrite decide_True by lia. simpl.
  rewrite firstn_all2 by lia.
  rewrite drop_ge by (rewrite length_replicate; lia).
  rewrite app_nil_r.
  intros [= <- <-]. simpl. split; [done|]. split; [|done].
  exists elements. split; [done|]. split; [done|].
  unfold load_range. simpl.
  rewrite list_lookup_insert_eq by (rewrite length_app; simpl; lia). simpl.
  case_decide as Hd; [|exfalso; apply Hd; lia].
  change (Z.to_nat 0) with 0%nat. rewrite drop_0.
  by rewrite firstn_all2 by lia.
Qed.

(** ** The iteration *)

Lemma run_calls_app {St : Type} (f : IdImpl → St → option St)
    (l1 l2 : list IdImpl) (s : St) :
  run_calls f (l1 ++ l2) s = run_calls f l1 s ≫= run_calls f l2.
Proof.
  revert s. induction l1 as [|i l1 IH]; intros s; [done|].
  simpl. destruct (f i s) as [s'|]; [|done]. simpl. apply IH.
Qed.

Lemma run_calls_record (l acc : list (list Z)) :
  run_calls record_call l acc = Some (acc ++ l).
Proof.
  revert acc. induction l as [|i l IH]; intros acc; simpl.
  - by rewrite app_nil_r.
  - rewrite IH. by rewrite <- app_assoc.
Qed.

Lemma list_bind_fmap_out {A B C : Type} (g : B → C) (k : A → list B) (l : list A) :
  g <$> (l ≫= k) = l ≫= (λ x, g <$> k x).
Proof.
  induction l as [|x l IH]; [done|].
  by rewrite !bind_cons, fmap_app, IH.
Qed.

Section Iterate.
Context {St : Type}.
Variable D : nat.
Variable r : RangeImpl.
Variable f : IdImpl → St → option St.
Hypothesis r_length : length r = D.

Lemma for_loop_iterated (d : nat) (body : Z → IdImpl * St → option (IdImpl * St)) :
  (d < D)%nat →
  (∀ k index s, length index = D →
     iterated D f (S d) (<[d:=k]> index) s
       (calls_from r (S d) (<[d:=k]> index)) (body k (index, s))) →
  ∀ n i index s, length index = D →
    iterated D f d index s
      (k ← seqZ i (Z.of_nat n);
       (λ suffix, take d index ++ k :: suffix) <$> box (drop (S d) r))
      (for_loop n i body (index, s)).
Proof.
  intros Hd Hbody. induction n as [|n IH]; intros i index s Hlen.
  - simpl. done.
  - rewrite seqZ_cons by lia.
    replace (Z.pred (Z.of_nat (S n))) with (Z.of_nat n) by lia.
    cbn [for_loop mbind list_bind]. simpl.
    assert (calls_from r (S d) (<[d:=i]> index)
            = (λ suffix, take d index ++ i :: suffix) <$> box (drop (S d) r))
      as Hcalls.
    { unfold calls_from. apply list_fmap_ext. intros _ suffix _.
      rewrite (take_S_r _ _ i) by (apply list_lookup_insert_eq; lia).
      rewrite take_insert_ge by lia. by rewrite <- app_assoc. }
    specialize (Hbody i index s Hlen). rewrite Hcalls in Hbody.
    unfold iterated in *. rewrite run_calls_app.
    destruct (body i (index, s)) as [[index1 s1]|]; simpl.
    + destruct Hbody as (Hlen1 & Htake1 & ->). simpl.
      assert (take d index1 = take d index) as Htake.
      { apply (f_equal (take d)) in Htake1.
        rewrite !take_take, Nat.min_l in Htake1 by lia.
        by rewrite Htake1, take_insert_ge by lia. }
      specialize (IH (Z.succ i) index1 s1 Hlen1).
      rewrite Htake in IH. replace (i + 1) with (Z.succ i) by lia.
      destruct (for_loop n (Z.succ i) body (index1, s1)) as [[index2 s2]|];
        [|done].
      destruct IH as (Hlen2 & Htake2 & Hrun2).
      split; [done|]. split; [congruence|]. exact Hrun2.
    + by rewrite Hbody.
Qed.

(** Level [level] of the iterator makes the calls of the dimensions
    [D - level] and up, in the order of [box], and leaves the components
    before [D - level] of the index as they were. *)
Lemma ParallelForIterate_iterated (level : nat) :
  (level ≤ D)%nat →
  ∀ index s, length index = D →
    iterated D f (D - level) index s (calls_from r (D - level) index)
      (ParallelForIterate D level r f index s).
Proof.
  induction level as [|level IH]; intros Hlevel index s Hlen.
  - unfold calls_from, iterated. simpl.
    rewrite Nat.sub_0_r, drop_ge, firstn_all2 by lia. simpl.
    rewrite app_nil_r. destruct (f index s); simpl; [|done].
    by rewrite firstn_all2 by lia.
  - cbn [ParallelForIterate]. rewrite decide_True by done.
    destruct (lookup_lt_is_Some_2 r (D - S level)) as [e He]; [lia|].
    rewrite He. simpl.
    assert (calls_from r (D - S level) index
            = k ← seqZ 0 (Z.of_nat (Z.to_nat e));
              (λ suffix, take (D - S level) index ++ k :: suffix)
                <$> box (drop (S (D - S level)) r)) as ->.
    { unfold calls_from. rewrite (drop_S _ _ _ He). simpl.
      replace (Z.of_nat (Z.to_nat e)) with (Z.max 0 e) by lia.
      assert (seqZ 0 (Z.max 0 e) = seqZ 0 e) as ->.
      { unfold seqZ. f_equal. f_equal. lia. }
      rewrite list_bind_fmap_out. apply list_bind_ext; [|done].
      intros k. rewrite <- list_fmap_compose. by apply list_fmap_ext. }
    apply for_loop_iterated; [lia| |done].
    intros k index0 s0 Hlen0. simpl. rewrite decide_True by lia.
    replace (S (D - S level)) with (D - level)%nat by lia.
    apply IH; [lia|by rewrite length_insert].
Qed.

(** The whole iteration is the run of the functor over [box r]. *)
Lemma ParallelForIterate_run_calls (index : IdImpl) (s : St) :
  length index = D →
  snd <$> ParallelForIterate D D r f index s = run_calls f (box r) s.
Proof.
  intros Hlen.
  pose proof (ParallelForIterate_iterated D (le_n D) index s Hlen) as H.
  unfold iterated, calls_from in H.
  rewrite Nat.sub_diag, drop_0 in H. simpl in H.
  rewrite list_fmap_id in H.
  destruct (ParallelForIterate D D r f index s) as [[index' s']|]; simpl.
  - by destruct H as (_ & _ & ->).
  - done.
Qed.
End Iterate.

(** ** The box of an extent *)

Lemma elem_of_box (extent : list Z) (i : list Z) :
  i ∈ box extent ↔ Forall2 (λ x e, 0 ≤ x < e) i extent.
Proof.
  revert i. induction extent as [|e extent IH]; intros i; simpl.
  - rewrite list_elem_of_singleton. split; [by intros ->|].
    apply Forall2_nil_inv_r.
  - rewrite list_elem_of_bind. split.
    + intros (k & Hi & Hk). apply list_elem_of_fmap in Hi as (i' & -> & Hi').
      apply elem_of_seqZ in Hk. apply IH in Hi'. constructor; [lia|done].
    + intros H. apply Forall2_cons_inv_r in H as (k & i' & Hk & Hi' & ->).
      exists k. split.
      * apply list_elem_of_fmap. exists i'. split; [done|]. by apply IH.
      * apply elem_of_seqZ. lia.
Qed.

Lemma length_bind_const {A B : Type} (g : A → list B) (l : list A) (c : nat) :
  (∀ x, length (g x) = c) → length (l ≫= g) = (length l * c)%nat.
Proof.
  intros Hg. induction l as [|x l IH]; [done|].
  rewrite bind_cons, length_app, IH, Hg. simpl. lia.
Qed.

Lemma length_box (extent : list Z) :
  Forall (λ e, 0 ≤ e) extent →
  Z.of_nat (length (box extent)) = product extent.
Proof.
  induction 1 as [|e extent He _ IH]; [done|].
  simpl. rewrite (length_bind_const _ _ (length (box extent))).
  - rewrite length_seqZ. unfold product in *. simpl. lia.
  - intros k. by rewrite length_fmap.
Qed.

Lemma NoDup_box (extent : list Z) : NoDup (box extent).
Proof.
  induction extent as [|e extent IH]; simpl.
  - apply NoDup_singleton.
  - apply NoDup_bind.
    + intros k1 k2 i _ _ H1 H2.
      apply list_elem_of_fmap in H1 as (i1 & -> & _).
      apply list_elem_of_fmap in H2 as (i2 & [= -> _] & _). done.
    + intros k _. apply NoDup_fmap_2; [|done]. by intros ?? [=].
    + apply NoDup_seqZ.
Qed.

Lemma box_empty (extent : list Z) : 0 ∈ extent → box extent = [].
Proof.
  intros H0. apply elem_of_nil_inv. intros i Hi.
  apply elem_of_box in Hi. apply list_elem_of_lookup in H0 as [k Hk].
  destruct (Forall2_lookup_r _ _ _ _ _ Hi Hk) as (x & _ & Hx). lia.
Qed.

Lemma StronglySorted_box (extent : list Z) : StronglySorted lex_lt (box extent).
Proof.
  induction extent as [|e extent IH]; simpl.
  - repeat constructor.
  - unfold seqZ. generalize 0 as m.
    induction (Z.to_nat e) as [|n IHn]; intros m; [constructor|].
    simpl. apply StronglySorted_app_2.
    + intros a b Ha Hb.
      apply list_elem_of_fmap in Ha as (a' & -> & _).
      apply list_elem_of_bind in Hb as (k & Hb & Hk).
      apply list_elem_of_fmap in Hb as (b' & -> & _).
      apply list_elem_of_fmap in Hk as (j & -> & Hj).
      apply elem_of_seq in Hj. simpl. left. lia.
    + apply (StronglySorted_fmap _ lex_lt lex_lt); [|done].
      intros a b Hab. simpl. by right.
    + rewrite <- fmap_S_seq, <- list_fmap_compose.
      specialize (IHn (m + 1)).
      erewrite list_fmap_ext; [exact IHn|].
      intros _ j _. simpl. lia.
Qed.

Lemma StronglySorted_lookup_lt {A : Type} (R : relation A) (l : list A)
    (j k : nat) (a b : A) :
  StronglySorted R l → (j < k)%nat →
  l !! j = Some a → l !! k = Some b → R a b.
Proof.
  intros Hl Hjk Ha Hb. rewrite <- (take_drop k l) in Hl.
  apply (StronglySorted_app_1_elem_of _ _ _ _ _ Hl).
  - apply elem_of_take. eauto.
  - apply list_elem_of_lookup. exists 0%nat.
    by rewrite lookup_drop, Nat.add_0_r.
Qed.

(** C2: for every rank from 1 to 3 and every extent without a negative
    component, the iteration started at the top level on any index of that
    rank calls the functor on the indices of [box extent], in that order:
    dimension 0 outermost, the last dimension innermost, each ascending.
    The calls are [product extent] many and pairwise distinct, an index is
    called exactly if every component lies in [0, extent), earlier calls are
    lexicographically smaller, and an extent with a zero yields no call. *)
Theorem ParallelForIterate_enumerates_box
    (D : nat) (extent : RangeImpl) (index : IdImpl) :
  (1 ≤ D ≤ 3)%nat →
  length extent = D →
  length index = D →
  Forall (λ e, 0 ≤ e) extent →
  ∃ calls,
    calls_of D extent index = Some calls
    ∧ calls = box extent
    ∧ Z.of_nat (length calls) = product extent
    ∧ NoDup calls
    ∧ (∀ i, i ∈ calls ↔ Forall2 (λ x e, 0 ≤ x < e) i extent)
    ∧ (∀ j k a b, (j < k)%nat →
         calls !! j = Some a → calls !! k = Some b → lex_lt a b)
    ∧ (0 ∈ extent → calls = []).
Proof.
  intros _ Hextent Hindex Hnonneg. exists (box extent).
  split.
  { unfold calls_of.
    rewrite (ParallelForIterate_run_calls D extent record_call Hextent) by done.
    by rewrite run_calls_record. }
  split; [done|].
  split; [by apply length_box|].
  split; [apply NoDup_box|].
  split; [apply elem_of_box|].
  split; [|apply box_empty].
  intros j k a b. apply StronglySorted_lookup_lt, StronglySorted_box.
Qed.

Lemma ParallelForIterate_enumerates_box_witness :
  ∃ calls,
    calls_of 2 [2; 3] [7; 7] = Some calls
    ∧ calls = box [2; 3]
    ∧ Z.of_nat (length calls) = product [2; 3]
    ∧ NoDup calls
    ∧ (∀ i, i ∈ calls ↔ Forall2 (λ x e, 0 ≤ x < e) i [2; 3])
    ∧ (∀ j k a b, (j < k)%nat →
         calls !! j = Some a → calls !! k = Some b → lex_lt a b)
    ∧ (0 ∈ [2; 3] → calls = []).
Proof.
  apply (ParallelForIterate_enumerates_box 2 [2; 3] [7; 7]).
  - lia.
  - reflexivity.
  - reflexivity.
  - repeat constructor; lia.
Defined.

Example calls_of_2_3 :
  calls_of 2 [2; 3] [7; 7]
  = Some [[0; 0]; [0; 1]; [0; 2]; [1; 0]; [1; 1]; [1; 2]].
Proof. reflexivity. Qed.

Example calls_of_zero_extent : calls_of 3 [2; 0; 4] [0; 0; 0] = Some [].
Proof. reflexivity. Qed.

(** ** Work-items *)

(** The work-items of a group are built from the id of that group: each
    one's global index is [group_id * local_range + local_id + offset]. *)
Lemma ParallelForWorkitem_global_index (dims : nat) (g : sycl.group.t)
    (items : list sycl.nd_item.t) :
  length (sycl.group.get_local_range g) = dims →
  sycl.ParallelForWorkitem dims g record_call [] = Some items →
  Forall (λ it,
    sycl.nd_item.get_nd_range it = sycl.group.get_nd_range g
    ∧ ∃ scaled shifted,
        sycl.SmallArray123_mul dims (sycl.group.get_group_id g)
          (sycl.group.get_local_range g) = Some scaled
        ∧ sycl.SmallArray123_add dims scaled (sycl.nd_item.get_local_id it)
          = Some shifted
        ∧ sycl.SmallArray123_add dims shifted (sycl.group.get_offset g)
          = Some (sycl.nd_item.get_global_id it)) items.
Proof.
  intros Hlen. unfold sycl.ParallelForWorkitem.
  rewrite (ParallelForIterate_run_calls dims _ _ Hlen)
    by apply length_replicate.
  generalize (box (sycl.group.get_local_range g)) as locals.
  intros locals. generalize (Forall_nil_2
    (λ it, sycl.nd_item.get_nd_range it = sycl.group.get_nd_range g
      ∧ ∃ scaled shifted,
          sycl.SmallArray123_mul dims (sycl.group.get_group_id g)
            (sycl.group.get_local_range g) = Some scaled
          ∧ sycl.SmallArray123_add dims scaled (sycl.nd_item.get_local_id it)
            = Some shifted
          ∧ sycl.SmallArray123_add dims shifted (sycl.group.get_offset g)
            = Some (sycl.nd_item.get_global_id it))).
  generalize (@nil sycl.nd_item.t) as acc.
  induction locals as [|l locals IH]; intros acc Hacc; simpl.
  - by intros [= <-].
  - destruct (sycl.SmallArray123_mul _ _ _) as [scaled|] eqn:Hmul; [|done].
    simpl.
    destruct (sycl.SmallArray123_add dims scaled l) as [shifted|] eqn:Hadd;
      [|done]. simpl.
    destruct (sycl.SmallArray123_add dims shifted _) as [global_index|] eqn:Hoff;
      [|done]. simpl.
    apply IH. apply Forall_app. split; [done|].
    constructor; [|done]. split; [done|]. by exists scaled, shifted.
Qed.

(** C3: in the ND-range of global size 4, local size 2 and offset 2, the
    second work-item of group 0 has global id 3 and local id 1;
    [get_group_id()] gives 2 for it, and
    [get_group_id() * get_local_range() + get_local_id() + get_offset()]
    is 7, not the global id.  (A division rounding down would give group 1
    there, not group 0 either.) *)
Theorem nd_item_get_group_id_breaks_relation :
  ∃ it0 it,
    sycl.ParallelForWorkitem 1
      (sycl.group.mk (sycl.nd_range.mk [4] [2] [2]) [0]) record_call []
    = Some [it0; it]
    ∧ sycl.nd_item.get_global_id it = [3]
    ∧ sycl.nd_item.get_local_id it = [1]
    ∧ sycl.nd_item.get_local_range it = [2]
    ∧ sycl.nd_item.get_offset it = [2]
    ∧ sycl.nd_item.get_group_id 1 it = Some [2]
    ∧ sycl.nd_item.derived_global_id 1 it = Some [7]
    ∧ sycl.nd_item.derived_global_id 1 it
      ≠ Some (sycl.nd_item.get_global_id it)
    ∧ intptr_div 3 2 = Some 1.
Proof.
  eexists _, _. split; [reflexivity|]. by repeat split.
Qed.

Example workitems_of_group_1_0 :
  fmap (M:=list) sycl.nd_item.get_global_id
    <$> sycl.ParallelForWorkitem 2
          (sycl.group.mk (sycl.nd_range.mk [4; 4] [2; 2] [0; 0]) [1; 0])
          record_call []
  = Some [[2; 0]; [2; 1]; [3; 0]; [3; 1]].
Proof. reflexivity. Qed.

(** * Further properties of the code *)

(** ** Coordinate arithmetic *)

Lemma foldl_ext_pointwise {A B : Type} (f g : A → B → A) (l : list B) (a : A) :
  (∀ a x, f a x = g a x) → foldl f a l = foldl g a l.
Proof.
  intros Hfg. revert a. induction l as [|x l IH]; intros a; [done|].
  simpl. by rewrite Hfg, IH.
Qed.

Lemma elementwise_flip (op op' : Z → Z → option Z) (D : nat) (a b : RangeImpl) :
  (∀ x y, op x y = op' y x) →
  elementwise op D a b = elementwise op' D b a.
Proof.
  intros Hop. unfold elementwise. apply foldl_ext_pointwise.
  intros acc i. unfold elementwise_step.
  destruct acc as [result|]; [|done]. simpl.
  destruct (a !! i) as [x|], (b !! i) as [y|]; simpl; try done.
  by rewrite Hop.
Qed.

Lemma mapM_total {A B : Type} (g : A → B) (l : list A) :
  mapM (λ x, Some (g x)) l = Some (g <$> l).
Proof.
  apply mapM_Some. induction l as [|x l IH]; constructor; done.
Qed.

(** On operands of rank [D] a loop whose operation never fails is
    [zip_with]. *)
Lemma elementwise_zip_with (g : Z → Z → Z) (D : nat) (a b : RangeImpl) :
  length a = D → length b = D →
  elementwise (λ x y, Some (g x y)) D a b = Some (zip_with g a b).
Proof.
  intros Ha Hb. rewrite elementwise_mapM by done. simpl.
  rewrite (mapM_total (λ p, g p.1 p.2)). f_equal.
  clear Ha Hb. revert b. induction a as [|x a IH]; intros [|y b]; simpl;
    try done. by rewrite IH.
Qed.

Lemma wrap_intptr_add_l (z k : Z) :
  wrap_intptr (wrap_intptr z + k) = wrap_intptr (z + k).
Proof.
  replace (wrap_intptr z + k) with (wrap_intptr z - (- k)) by lia.
  rewrite wrap_intptr_sub_l. f_equal. lia.
Qed.

Lemma wrap_intptr_add_r (z k : Z) :
  wrap_intptr (k + wrap_intptr z) = wrap_intptr (k + z).
Proof. rewrite Z.add_comm, wrap_intptr_add_l. f_equal. lia. Qed.

Lemma zip_with_assoc {A : Type} (g : A → A → A) (a b c : list A) :
  (∀ x y z, g (g x y) z = g x (g y z)) →
  zip_with g (zip_with g a b) c = zip_with g a (zip_with g b c).
Proof.
  intros Hg. revert b c. induction a as [|x a IH]; intros [|y b] [|z c];
    simpl; try done. by rewrite Hg, IH.
Qed.

(** X1: [operator +] and [operator *] are commutative, whatever the
    operands (also where a read outside an operand makes both sides
    fail). *)
Theorem operator_add_mul_comm (D : nat) (a b : RangeImpl) :
  operator_add D a b = operator_add D b a
  ∧ operator_mul D a b = operator_mul D b a.
Proof.
  split; apply elementwise_flip; intros x y;
    unfold intptr_add, intptr_mul; do 2 f_equal; lia.
Qed.

(** X2: on operands of rank [D], [operator +] and [operator *] always
    return; component [i] of the result is the sum, respectively the
    product, of the components [i], reduced to the signed 64-bit word; where
    no component sum leaves the range of [std::intptr_t] the result is the
    exact componentwise sum. *)
Theorem operator_add_mul_components (D : nat) (a b : RangeImpl) :
  length a = D → length b = D →
  operator_add D a b = Some (zip_with (λ x y, wrap_intptr (x + y)) a b)
  ∧ operator_mul D a b = Some (zip_with (λ x y, wrap_intptr (x * y)) a b)
  ∧ (Forall2 (λ x y, INTPTR_MIN ≤ x + y ≤ INTPTR_MAX) a b →
     operator_add D a b = Some (zip_with Z.add a b)).
Proof.
  intros Ha Hb.
  assert (operator_add D a b
          = Some (zip_with (λ x y, wrap_intptr (x + y)) a b)) as Hadd.
  { by apply (elementwise_zip_with (λ x y, wrap_intptr (x + y))). }
  split; [done|]. split.
  { by apply (elementwise_zip_with (λ x y, wrap_intptr (x * y))). }
  intros Hfit. rewrite Hadd. f_equal. clear Ha Hb Hadd.
  induction Hfit as [|x y a' b' Hxy _ IH]; [done|].
  simpl. by rewrite wrap_intptr_in_range, IH.
Qed.

Lemma operator_add_mul_components_witness :
  operator_add 2 [INTPTR_MAX; 3] [1; 4] = Some [INTPTR_MIN; 7]
  ∧ operator_mul 2 [INTPTR_MAX; 3] [1; 4]
    = Some (zip_with (λ x y, wrap_intptr (x * y)) [INTPTR_MAX; 3] [1; 4])
  ∧ (Forall2 (λ x y, INTPTR_MIN ≤ x + y ≤ INTPTR_MAX) [INTPTR_MAX; 3] [1; 4] →
     operator_add 2 [INTPTR_MAX; 3] [1; 4]
     = Some (zip_with Z.add [INTPTR_MAX; 3] [1; 4])).
Proof.
  apply (operator_add_mul_components 2 [INTPTR_MAX; 3] [1; 4]); reflexivity.
Defined.

(** X3: [operator +] is associative on operands of rank [D], wrap-around
    included. *)
Theorem operator_add_assoc (D : nat) (a b c : RangeImpl) :
  length a = D → length b = D → length c = D →
  operator_add D a b ≫= (λ ab, operator_add D ab c)
  = operator_add D b c ≫= (λ bc, operator_add D a bc).
Proof.
  intros Ha Hb Hc. unfold operator_add, intptr_add.
  rewrite !(elementwise_zip_with (λ x y, wrap_intptr (x + y))) by done.
  simpl.
  rewrite !(elementwise_zip_with (λ x y, wrap_intptr (x + y)))
    by (rewrite ?length_zip_with; lia).
  f_equal. apply zip_with_assoc. intros x y z.
  rewrite wrap_intptr_add_l, wrap_intptr_add_r. f_equal. lia.
Qed.

Lemma operator_add_assoc_witness :
  operator_add 2 [INTPTR_MAX; 1] [1; 2] ≫= (λ ab, operator_add 2 ab [-1; 3])
  = operator_add 2 [1; 2] [-1; 3] ≫= (λ bc, operator_add 2 [INTPTR_MAX; 1] bc).
Proof.
  apply (operator_add_assoc 2 [INTPTR_MAX; 1] [1; 2] [-1; 3]); reflexivity.
Defined.

(** X4: the default-constructed coordinate is neutral for [operator +]: a
    zero offset leaves a coordinate of rank [D] with components in the
    range of [std::intptr_t] as it is, on either side. *)
Theorem operator_add_default (D : nat) (a : RangeImpl) :
  length a = D →
  Forall (λ x, INTPTR_MIN ≤ x ≤ INTPTR_MAX) a →
  operator_add D (RangeImpl_default D) a = Some a
  ∧ operator_add D a (RangeImpl_default D) = Some a.
Proof.
  intros Ha Hrange.
  assert (operator_add D (RangeImpl_default D) a = Some a) as H.
  { unfold operator_add, intptr_add.
    rewrite (elementwise_zip_with (λ x y, wrap_intptr (x + y)))
      by (done || apply length_replicate).
    f_equal. subst D. unfold RangeImpl_default.
    induction Hrange as [|x a Hx _ IH]; [done|].
    simpl. by rewrite wrap_intptr_in_range, IH. }
  split; [done|].
  rewrite <- H. apply elementwise_flip. intros x y.
  unfold intptr_add. do 2 f_equal. lia.
Qed.

Lemma operator_add_default_witness :
  operator_add 3 (RangeImpl_default 3) [5; -2; INTPTR_MAX]
    = Some [5; -2; INTPTR_MAX]
  ∧ operator_add 3 [5; -2; INTPTR_MAX] (RangeImpl_default 3)
    = Some [5; -2; INTPTR_MAX].
Proof.
  apply (operator_add_default 3 [5; -2; INTPTR_MAX]).
  - reflexivity.
  - repeat constructor; vm_compute; discriminate.
Defined.

(** X5: a coordinate built with the constructors [RangeImpl] declares
    itself (default, initializer list with its assertion, copy) or returned
    by one of the three operators has exactly [D] components. *)
Theorem RangeImpl_declared_length (D : nat) (r : RangeImpl) :
  RangeImpl_declared D r → length r = D.
Proof.
  induction 1 as [r Hr|l r Hr|init r _ IH Hr|a b r Hr].
  - by apply RangeImpl_default_zero in Hr as [? _].
  - by apply RangeImpl_initializer_list_length in Hr.
  - by injection Hr as <-.
  - destruct Hr as [Hr|[Hr|Hr]]; by apply elementwise_Some in Hr as [? _].
Qed.

Lemma RangeImpl_declared_length_witness :
  length [5; 7] = 2%nat.
Proof.
  apply (RangeImpl_declared_length 2 [5; 7]).
  apply (declared_operator 2 [4; 5] [1; 2] [5; 7]).
  right. right. reflexivity.
Defined.

Lemma intptr_div_up_exact (g l : Z) :
  0 < l → 0 ≤ g → (l | g) → g + l - 1 ≤ INTPTR_MAX →
  intptr_div_up g l = Some (g `div` l) ∧ wrap_intptr (g `div` l * l) = g.
Proof.
  intros Hl Hg [k ->] Hfit.
  unfold intptr_div_up, intptr_div. rewrite wrap_intptr_sub_l.
  assert (INTPTR_MAX = 2 ^ 63 - 1) as HM by reflexivity.
  assert (INTPTR_MIN = - 2 ^ 63) as Hm by reflexivity.
  rewrite wrap_intptr_in_range by lia.
  rewrite decide_False by lia. rewrite decide_False by lia.
  rewrite Z.quot_div_nonneg by lia.
  rewrite Z.div_mul by lia. split.
  - f_equal. symmetry. apply (Z.div_unique _ _ _ (l - 1)); lia.
  - apply wrap_intptr_in_range. lia.
Qed.

(** X6: a local range with a zero component makes the group range
    undefined: the division by that component traps, whatever the global
    range and the offset. *)
Theorem get_group_range_zero_local (D : nat) (ndr : NDRangeImpl.t) :
  length (NDRangeImpl.LocalRange ndr) = D →
  0 ∈ NDRangeImpl.LocalRange ndr →
  NDRangeImpl.get_group_range D ndr = None.
Proof.
  intros Hlen H0. unfold NDRangeImpl.get_group_range, operator_div.
  destruct (elementwise _ _ _ _) as [r|] eqn:Hr; [|done].
  apply elementwise_Some in Hr as [_ Hr].
  apply list_elem_of_lookup in H0 as [i Hi].
  destruct (Hr i) as (x & y & v & _ & Hy & Hv & _).
  { apply lookup_lt_Some in Hi. lia. }
  rewrite Hi in Hy. injection Hy as <-.
  unfold intptr_div_up, intptr_div in Hv. by rewrite decide_True in Hv.
Qed.

Lemma get_group_range_zero_local_witness :
  NDRangeImpl.get_group_range 2 (NDRangeImpl.mk [4; 4] [2; 0] [0; 0]) = None.
Proof.
  apply (get_group_range_zero_local 2 (NDRangeImpl.mk [4; 4] [2; 0] [0; 0])).
  - reflexivity.
  - simpl. apply list_elem_of_lookup. exists 1%nat. reflexivity.
Defined.

(** X7: where every component of the global range is a non-negative
    multiple of the positive component of the local range (and
    [global + local - 1] fits the word), the group range is the exact
    componentwise quotient, and multiplying it by the local range with
    [operator *] gives the global range back. *)
Theorem get_group_range_exact (D : nat) (global_size local_size : RangeImpl)
    (offset : IdImpl) :
  length global_size = D →
  Forall2 (λ g l, 0 < l ∧ 0 ≤ g ∧ (l | g) ∧ g + l - 1 ≤ INTPTR_MAX)
    global_size local_size →
  NDRangeImpl.get_group_range D (NDRangeImpl.mk global_size local_size offset)
    = Some (zip_with Z.div global_size local_size)
  ∧ operator_mul D (zip_with Z.div global_size local_size) local_size
    = Some global_size.
Proof.
  intros Hg Hmult.
  assert (length local_size = D) as Hl
    by (by apply Forall2_length in Hmult; lia).
  unfold NDRangeImpl.get_group_range. simpl. split.
  - unfold operator_div. rewrite elementwise_mapM by done.
    apply mapM_Some. clear Hg Hl.
    induction Hmult as [|g l G L (Hl & Hg & Hdiv & Hfit) _ IH]; simpl;
      constructor; [|done].
    simpl. by apply intptr_div_up_exact.
  - unfold operator_mul, intptr_mul.
    rewrite (elementwise_zip_with (λ x y, wrap_intptr (x * y)))
      by (rewrite ?length_zip_with; lia).
    f_equal. clear Hg Hl.
    induction Hmult as [|g l G L (Hl & Hg & Hdiv & Hfit) _ IH]; simpl; [done|].
    rewrite IH. f_equal. by apply intptr_div_up_exact.
Qed.

Lemma get_group_range_exact_witness :
  NDRangeImpl.get_group_range 2 (NDRangeImpl.mk [6; 0] [3; 5] [1; 1])
    = Some [2; 0]
  ∧ operator_mul 2 [2; 0] [3; 5] = Some [6; 0].
Proof.
  apply (get_group_range_exact 2 [6; 0] [3; 5] [1; 1]).
  - reflexivity.
  - repeat constructor; try lia; try (vm_compute; discriminate).
    + by exists 2.
    + by exists 0.
Defined.

(** ** Element access *)

(** X9: the layout is injective on the components the access looks at:
    two indices for which [operator[](IdImpl)] of an accessor gives the same
    element agree on their first components, as many as the array has
    dimensions (later components are never looked at); two such indices of
    the rank of the array are equal. *)
Theorem subscript_id_inj (a : AccessorImpl) (Index Index' : IdImpl)
    (p : pointer) :
  subscript_id a Index = Some p →
  subscript_id a Index' = Some p →
  take (length (extent_list (Array a))) Index
    = take (length (extent_list (Array a))) Index'
  ∧ (length Index = length (extent_list (Array a)) →
     length Index' = length (extent_list (Array a)) →
     Index = Index').
Proof.
  unfold subscript_id, access_element.
  destruct (element_offset _ Index) as [o|] eqn:Ho; [|done].
  destruct (element_offset _ Index') as [o'|] eqn:Ho'; [|done].
  simpl. intros [= <-] [= Heq].
  assert (o' = o) as -> by lia.
  pose proof (element_offset_inj _ _ _ _ Ho Ho') as Htake.
  split; [done|]. intros Hlen Hlen'.
  by rewrite <- (firstn_all Index), <- (firstn_all Index'), Hlen, Hlen'.
Qed.

Lemma subscript_id_inj_witness :
  let a := mkAccessorImpl access.read access.global_buffer
             (mk_multi_array_ref (mkpointer 0 4) [2; 3]) in
  take (length (extent_list (Array a))) [1; 2]
    = take (length (extent_list (Array a))) [1; 2; 7]
  ∧ (length [1; 2] = length (extent_list (Array a)) →
     length [1; 2; 7] = length (extent_list (Array a)) →
     [1; 2] = [1; 2; 7]).
Proof.
  intros a.
  apply (subscript_id_inj a [1; 2] [1; 2; 7] (mkpointer 0 9)); reflexivity.
Defined.

Lemma load_store_other {T : Type} (h : heap T) (p : pointer) (v : T)
    (h' : heap T) (q : pointer) :
  store h p v = Some h' → q ≠ p → load h' q = load h q.
Proof.
  intros Hstore Hne.
  destruct (decide (block p = block q)) as [Hb|Hb];
    [|by eapply load_store_other_block].
  revert Hstore. unfold store, load. case_decide as Hp; [|done].
  destruct (h !! block p) as [b|] eqn:Hblk; [|done]. simpl.
  case_decide; [|done]. intros [= <-].
  case_decide as Hq; [|done]. rewrite <- Hb.
  rewrite list_lookup_insert_eq by (by eapply lookup_lt_Some).
  rewrite Hblk. simpl. apply list_lookup_insert_ne.
  intros Heq. apply Hne. destruct p, q; simpl in *. f_equal; lia.
Qed.

(** X10: all accessors of one buffer see one storage.  A value written at
    an index through an accessor of any mode is read back at that index
    through any accessor of the same buffer, and an index that differs from
    it in one of the components the access looks at (the first ones, as
    many as the array has dimensions) reads what it read before. *)
Theorem accessor_write_read {T : Type} (b : BufferImpl)
    (mode mode' : access.mode) (target target' : access.target)
    (Index : IdImpl) (v : T) (h h' : heap T) :
  accessor_write (get_access mode target b) Index v h = Some h' →
  accessor_read (get_access mode' target' b) Index h' = Some v
  ∧ ∀ Index',
      take (length (extent_list (Access b))) Index'
        ≠ take (length (extent_list (Access b))) Index →
      accessor_read (get_access mode' target' b) Index' h'
      = accessor_read (get_access mode' target' b) Index' h.
Proof.
  unfold accessor_write, accessor_read, subscript_id, get_access,
    AccessorImpl_new. simpl.
  destruct (access_element (Access b) Index) as [p|] eqn:Hp; [|done]. simpl.
  intros Hstore. split; [by eapply load_store_same|].
  intros Index' Hne.
  destruct (access_element (Access b) Index') as [q|] eqn:Hq; [|done]. simpl.
  apply (load_store_other _ _ _ _ _ Hstore). intros Heq. subst q.
  apply Hne. unfold access_element in Hp, Hq.
  destruct (element_offset _ Index) as [o|] eqn:Ho; [|done].
  destruct (element_offset _ Index') as [o'|] eqn:Ho'; [|done].
  simpl in *. injection Hp as <-. injection Hq as Hq.
  assert (o' = o) as -> by lia. by eapply element_offset_inj.
Qed.

Lemma accessor_write_read_witness :
  let b := mkBufferImpl (mk_multi_array_ref (mkpointer 1 0) [0])
             (mk_multi_array_ref (mkpointer 0 0) [3]) (Some false) in
  accessor_read (get_access access.read access.host_buffer b) [1]
    [[10; 99; 30]; []] = Some 99
  ∧ ∀ Index',
      take (length (extent_list (Access b))) Index'
        ≠ take (length (extent_list (Access b))) [1] →
      accessor_read (get_access access.read access.host_buffer b) Index'
        [[10; 99; 30]; []]
      = accessor_read (get_access access.read access.host_buffer b) Index'
          [[10; 20; 30]; []].
Proof.
  apply (accessor_write_read _ access.write access.read
           access.global_buffer access.host_buffer [1] 99
           [[10; 20; 30]; []] [[10; 99; 30]; []]).
  reflexivity.
Defined.

(** ** Buffers *)

(** X11: a buffer created from a range owns new storage: through any
    accessor every index inside the range reads the value-initialised
    element and every other index is rejected; the flag is [false] and what
    was in memory before is untouched. *)
Theorem BufferImpl_new_value_initialised {T : Type} (T_default : T)
    (r : RangeImpl) (h : heap T)
    (mode : access.mode) (target : access.target) (Index : IdImpl) :
  let b := (BufferImpl_new T_default r h).1 in
  let h' := (BufferImpl_new T_default r h).2 in
  accessor_read (get_access mode target b) Index h'
    = (element_offset (to_size_t <$> r) Index ≫= λ _, Some T_default)
  ∧ ReadOnly b = Some false
  ∧ ∀ p, (block p < length h)%nat → load h' p = load h p.
Proof.
  simpl. split; [|split; [done|]].
  - unfold accessor_read, subscript_id, access_element. simpl.
    destruct (element_offset _ _) as [o|] eqn:Ho; [|done]. simpl.
    apply element_offset_Some in Ho as [_ Ho].
    unfold load. simpl. rewrite decide_True by lia.
    rewrite lookup_app_r by lia. rewrite Nat.sub_diag. simpl.
    apply lookup_replicate_2. lia.
  - intros p Hp. by apply (load_allocate h).
Qed.

(** X12: a buffer built on host data is a window on the caller's storage:
    a write through one of its accessors at an index whose element exists
    succeeds and is a write to that element of the host block, which keeps
    its place and length. *)
Theorem BufferImpl_host_write_through {T : Type} (T_default : T)
    (dimensions : nat) (host_data : pointer) (r : RangeImpl) (h : heap T)
    (mode : access.mode) (target : access.target)
    (Index : IdImpl) (o : Z) (v : T) :
  let b := (BufferImpl_host T_default dimensions host_data r h).1 in
  let h' := (BufferImpl_host T_default dimensions host_data r h).2 in
  element_offset (to_size_t <$> r) Index = Some o →
  is_Some (load h (mkpointer (block host_data) (offset host_data + o))) →
  ∃ h'', accessor_write (get_access mode target b) Index v h' = Some h''
    ∧ load h'' (mkpointer (block host_data) (offset host_data + o)) = Some v
    ∧ ∀ q, q ≠ mkpointer (block host_data) (offset host_data + o) →
        load h'' q = load h' q.
Proof.
  simpl. intros Ho [x Hx].
  unfold accessor_write, subscript_id, access_element. simpl.
  rewrite Ho. simpl.
  set (p := mkpointer (block host_data) (offset host_data + o)) in *.
  assert (is_Some (store (h ++ [replicate
            (Z.to_nat (product (replicate dimensions 0))) T_default]) p v))
    as [h'' Hstore].
  { revert Hx. unfold load, store. case_decide; [|done].
    destruct (h !! block p) as [blk|] eqn:Hblk; [|done]. simpl.
    intros Hx. rewrite (lookup_app_l_Some _ _ _ _ Hblk). simpl.
    rewrite decide_True by (by eapply lookup_lt_Some). by eexists. }
  exists h''. split; [done|]. split; [by eapply load_store_same|].
  intros q Hq. by eapply load_store_other.
Qed.

Lemma BufferImpl_host_write_through_witness :
  ∃ h'', accessor_write
           (get_access access.read_write access.global_buffer
              (BufferImpl_host 0 2 (mkpointer 0 1) [2; 2]
                 [[7; 10; 20; 30; 40]]).1)
           [1; 0] 99
           (BufferImpl_host 0 2 (mkpointer 0 1) [2; 2]
              [[7; 10; 20; 30; 40]]).2 = Some h''
    ∧ load h'' (mkpointer 0 (1 + 2)) = Some 99
    ∧ ∀ q, q ≠ mkpointer 0 (1 + 2) →
        load h'' q
        = load (BufferImpl_host 0 2 (mkpointer 0 1) [2; 2]
                  [[7; 10; 20; 30; 40]]).2 q.
Proof.
  apply (BufferImpl_host_write_through 0 2 (mkpointer 0 1) [2; 2]
           [[7; 10; 20; 30; 40]] access.read_write access.global_buffer
           [1; 0] 2 99).
  - reflexivity.
  - vm_compute. eauto.
Defined.

(** X13: the copy constructor keeps the shape and the contents: the copy
    has the extents of the original's view, and right after the copy every
    index reads through the copy what it reads through the original. *)
Theorem BufferImpl_copy_same_elements {T : Type} (b c : BufferImpl)
    (h h1 : heap T) :
  BufferImpl_copy b h = Some (c, h1) →
  extent_list (Access c) = extent_list (Access b)
  ∧ ∀ mode target Index,
      accessor_read (get_access mode target c) Index h1
      = accessor_read (get_access mode target b) Index h1.
Proof.
  intros Hcopy.
  destruct (BufferImpl_copy_fresh _ _ _ _ Hcopy)
    as (elements & Hload & -> & Hc & _).
  rewrite Hc. simpl. split; [done|].
  intros mode target Index.
  unfold accessor_read, subscript_id, get_access, AccessorImpl_new,
    access_element. simpl. rewrite Hc. simpl.
  destruct (element_offset _ _) as [o|] eqn:Ho; [|done]. simpl.
  apply element_offset_Some in Ho as [_ Ho].
  revert Hload. unfold load_range, load, num_elements. simpl.
  case_decide as Hoff; [|done].
  destruct (h !! block (base (Access b))) as [blk|] eqn:Hblk; [|done]. simpl.
  case_decide as Hfit; [|done]. intros [= <-].
  rewrite decide_True by lia. rewrite decide_True by lia.
  rewrite lookup_app_r by lia. rewrite Nat.sub_diag. simpl.
  rewrite (lookup_app_l_Some _ _ _ _ Hblk). simpl.
  rewrite lookup_take_lt by lia. rewrite lookup_drop. f_equal. lia.
Qed.

Lemma BufferImpl_copy_same_elements_witness :
  ∃ b c h1,
    BufferImpl_copy b [[7; 10; 20; 30; 40]; []] = Some (c, h1)
    ∧ extent_list (Access c) = extent_list (Access b)
    ∧ ∀ mode target Index,
        accessor_read (get_access mode target c) Index h1
        = accessor_read (get_access mode target b) Index h1.
Proof.
  exists (BufferImpl_host 0 2 (mkpointer 0 1) [2; 2] [[7; 10; 20; 30; 40]]).1.
  eexists _, _. split; [vm_compute; reflexivity|].
  apply (BufferImpl_copy_same_elements _ _ [[7; 10; 20; 30; 40]; []] _).
  vm_compute. reflexivity.
Defined.

(** X14: for every iterator pair that delimits elements of an existing
    block, the iterator-pair constructor builds a buffer: a new block
    holding exactly the elements of the source in order, one extent (the
    distance), view and allocation on the new block, no value for
    [ReadOnly]; what was in memory before is untouched. *)
Theorem BufferImpl_iterators_builds {T : Type} (T_default : T)
    (start_iterator end_iterator : pointer) (h : heap T) (blk : list T) :
  h !! block start_iterator = Some blk →
  block end_iterator = block start_iterator →
  0 ≤ offset start_iterator ≤ offset end_iterator →
  offset end_iterator ≤ Z.of_nat (length blk) →
  let distance := offset end_iterator - offset start_iterator in
  let elements :=
    take (Z.to_nat distance) (drop (Z.to_nat (offset start_iterator)) blk) in
  let view := mk_multi_array_ref (mkpointer (length h) 0) [distance] in
  BufferImpl_iterators T_default start_iterator end_iterator h
    = Some (mkBufferImpl view view None, h ++ [elements])
  ∧ length elements = Z.to_nat distance
  ∧ load_range (h ++ [elements]) (base view) (Z.to_nat distance)
    = Some elements.
Proof.
  intros Hblk Hsame Hle Hend. cbv zeta.
  assert (length (take (Z.to_nat (offset end_iterator - offset start_iterator))
                    (drop (Z.to_nat (offset start_iterator)) blk))
          = Z.to_nat (offset end_iterator - offset start_iterator)) as Hlen.
  { rewrite length_take, length_drop. lia. }
  split; [|split; [done|]].
  - unfold BufferImpl_iterators. rewrite decide_True by (split; [done|lia]).
    unfold multi_array_new, allocate. cbv zeta.
    assert (∀ z, product [z] = z) as Hprod.
    { intros z. unfold product. simpl. lia. }
    rewrite (Hprod (offset end_iterator - offset start_iterator)).
    unfold load_range at 1. rewrite decide_True by lia.
    rewrite (lookup_app_l_Some _ _ _ _ Hblk). simpl.
    rewrite decide_True by lia. simpl.
    unfold multi_array_assign, num_elements. simpl.
    rewrite lookup_app_r by lia. rewrite Nat.sub_diag. simpl.
    rewrite !Z.mul_1_r.
    case_decide as Hd;
      [|exfalso; apply Hd; rewrite length_replicate; lia].
    simpl.
    rewrite (firstn_all2 (take _ _)) by lia.
    rewrite Hlen.
    rewrite (drop_ge (replicate
               (Z.to_nat (offset end_iterator - offset start_iterator))
               T_default))
      by (rewrite length_replicate; lia).
    rewrite app_nil_r, insert_app_r_alt by lia.
    by rewrite Nat.sub_diag.
  - unfold load_range. simpl.
    rewrite lookup_app_r by lia. rewrite Nat.sub_diag. simpl.
    case_decide as Hd; [|exfalso; apply Hd; lia].
    change (Z.to_nat 0) with 0%nat. rewrite drop_0.
    by rewrite firstn_all2 by lia.
Qed.

Lemma BufferImpl_iterators_builds_witness :
  BufferImpl_iterators 0 (mkpointer 0 1) (mkpointer 0 4) [[7; 10; 20; 30; 40]]
    = Some (mkBufferImpl (mk_multi_array_ref (mkpointer 1 0) [3])
              (mk_multi_array_ref (mkpointer 1 0) [3]) None,
            [[7; 10; 20; 30; 40]; [10; 20; 30]])
  ∧ length [10; 20; 30] = 3%nat
  ∧ load_range [[7; 10; 20; 30; 40]; [10; 20; 30]] (mkpointer 1 0) 3
    = Some [10; 20; 30].
Proof.
  apply (BufferImpl_iterators_builds 0 (mkpointer 0 1) (mkpointer 0 4)
           [[7; 10; 20; 30; 40]] [7; 10; 20; 30; 40]).
  - reflexivity.
  - reflexivity.
  - simpl. lia.
  - simpl. lia.
Defined.

(** ** The iteration, for every functor *)

Lemma box_nonpositive (extent : list Z) (e : Z) :
  e ∈ extent → e ≤ 0 → box extent = [].
Proof.
  intros He Hle. apply elem_of_nil_inv. intros i Hi.
  apply elem_of_box in Hi. apply list_elem_of_lookup in He as [k Hk].
  destruct (Forall2_lookup_r _ _ _ _ _ Hi Hk) as (x & _ & Hx). lia.
Qed.

(** X15: whatever the functor does to its state, and whether or not it
    fails, the top-level iteration over an extent of rank [D] is the run of
    the functor over the points of the box in order: a call that fails ends
    the iteration with that failure and no later index is called. *)
Theorem ParallelForIterate_runs_functor {St : Type} (D : nat) (r : RangeImpl)
    (f : IdImpl → St → option St) (index : IdImpl) (s : St) :
  length r = D → length index = D →
  snd <$> ParallelForIterate D D r f index s = run_calls f (box r) s.
Proof. intros Hr Hindex. by apply ParallelForIterate_run_calls. Qed.

Lemma ParallelForIterate_runs_functor_witness :
  let f := λ (i : IdImpl) (s : list IdImpl),
             if decide (i = [1; 0]) then None else Some (s ++ [i]) in
  snd <$> ParallelForIterate 2 2 [2; 2] f [0; 0] []
  = run_calls f (box [2; 2]) [].
Proof.
  intros f.
  apply (ParallelForIterate_runs_functor 2 [2; 2] f [0; 0] []); reflexivity.
Defined.

(** X16: an extent with a component that is zero or negative yields no
    call at all: the iteration returns with the state it was given,
    whatever the functor. *)
Theorem ParallelForIterate_nonpositive_extent {St : Type} (D : nat)
    (r : RangeImpl) (f : IdImpl → St → option St) (index : IdImpl) (s : St)
    (e : Z) :
  length r = D → length index = D →
  e ∈ r → e ≤ 0 →
  snd <$> ParallelForIterate D D r f index s = Some s.
Proof.
  intros Hr Hindex He Hle.
  rewrite (ParallelForIterate_run_calls D r f Hr) by done.
  by rewrite (box_nonpositive r e).
Qed.

Lemma ParallelForIterate_nonpositive_extent_witness :
  snd <$> ParallelForIterate 3 3 [2; -5; 4] (λ _ _, None) [0; 0; 0] tt
  = Some tt.
Proof.
  apply (ParallelForIterate_nonpositive_extent 3 [2; -5; 4] _ _ _ (-5)).
  - reflexivity.
  - reflexivity.
  - apply list_elem_of_lookup. exists 1%nat. reflexivity.
  - lia.
Defined.

(** ** Coordinates returned as std::size_t *)

(** X17: [group::get] and [item::get] return the component converted to
    [std::size_t]: the component itself exactly when it is not negative,
    and nothing for a dimension the id does not have. *)
Theorem group_item_get_size_t (g : sycl.group.t) (it : sycl.item.t)
    (dimension : nat) :
  (∀ v, sycl.group.Id g !! dimension = Some v →
        INTPTR_MIN ≤ v ≤ INTPTR_MAX →
        (sycl.group.get g dimension = Some v ↔ 0 ≤ v))
  ∧ (∀ v, sycl.item.GlobalIndex it !! dimension = Some v →
          INTPTR_MIN ≤ v ≤ INTPTR_MAX →
          (sycl.item.get it dimension = Some v ↔ 0 ≤ v))
  ∧ ((length (sycl.group.Id g) ≤ dimension)%nat →
     sycl.group.get g dimension = None)
  ∧ ((length (sycl.item.GlobalIndex it) ≤ dimension)%nat →
     sycl.item.get it dimension = None).
Proof.
  assert (∀ v, INTPTR_MIN ≤ v ≤ INTPTR_MAX →
               (Some (to_size_t v) = Some v ↔ 0 ≤ v)) as Hconv.
  { intros v Hv. unfold to_size_t, INTPTR_MIN, INTPTR_MAX, word_width in *.
    simpl in Hv. split.
    - intros [= H]. pose proof (Z.mod_pos_bound v (2 ^ 64)). lia.
    - intros H. f_equal. apply Z.mod_small. lia. }
  unfold sycl.group.get, sycl.item.get.
  split; [|split; [|split]].
  - intros v -> Hv. by apply Hconv.
  - intros v -> Hv. by apply Hconv.
  - intros H. by rewrite lookup_ge_None_2.
  - intros H. by rewrite lookup_ge_None_2.
Qed.

(** ** The independence of a copy *)

Lemma BufferImpl_copy_is_snapshot_witness :
  let b := mkBufferImpl (mk_multi_array_ref (mkpointer 1 0) [0])
             (mk_multi_array_ref (mkpointer 0 0) [3]) (Some true) in
  let c := mkBufferImpl (mk_multi_array_ref (mkpointer 2 0) [3])
             (mk_multi_array_ref (mkpointer 2 0) [3]) (Some false) in
  let h1 : heap Z := [[10; 20; 30]; []; [10; 20; 30]] in
  let h2 : heap Z := [[10; 99; 30]; []; [10; 20; 30]] in
  BufferImpl_copy b [[10; 20; 30]; []] = Some (c, h1)
  ∧ (accessor_write (get_access access.write access.global_buffer b)
       [1] 99 h1 = Some h2 →
     accessor_read (get_access access.read access.global_buffer c) [1] h2
     = accessor_read (get_access access.read access.global_buffer c) [1] h1)
  ∧ (accessor_write (get_access access.write access.global_buffer c)
       [1] 99 h1 = Some h2 →
     accessor_read (get_access access.read access.global_buffer b) [1] h2
     = accessor_read (get_access access.read access.global_buffer b) [1] h1).
Proof.
  intros b c h1 h2. split; [reflexivity|].
  apply (BufferImpl_copy_is_snapshot b [[10; 20; 30]; []] c h1).
  reflexivity.
Defined.
